(** * wasabi.util: a shallow embedding and its verified properties

    The module [wasabi/util.py] gathers terminal presentation helpers:
    ANSI colouring ([color]), line diffs ([diff_strings]), word wrapping
    ([wrap]), encoding fallbacks ([locale_escape], [can_render]) and
    capability detection ([supports_ansi]).

    Conventions of the embedding:
    - a Python [str] is the list of its code points ([list Z]);
    - a Python [bytes] is a list of byte values ([list Z]);
    - list indices and lengths are [nat];
    - a Python [dict] is a [gmap];
    - a call that may raise returns a [result]. *)

From Stdlib Require Import ZArith Ascii String DecimalString Sorted Permutation.
From stdpp Require Import base tactics option list gmap sorting.

Set Default Proof Using "Type".

(* ===================================================================== *)
(** * Part I: the model *)
(* ===================================================================== *)

(** ** Python text *)

Abbreviation str := (list Z).
Abbreviation bytes := (list Z).

(** A literal made of ASCII characters. *)
Definition lit (s : string) : str :=
  map (λ c, Z.of_nat (nat_of_ascii c)) (list_ascii_of_string s).

Definition ESC : Z := 27.  (* "\x1b" *)
Definition NL : Z := 10.   (* "\n" *)

(** [sep.join(items)] *)
Fixpoint join (sep : str) (items : list str) : str :=
  match items with
  | [] => []
  | [x] => x
  | x :: rest => x ++ sep ++ join sep rest
  end.

(** [s.split("\n")]: never empty, [""] for the empty string. *)
Fixpoint split_nl (s : str) : list str :=
  match s with
  | [] => [[]]
  | c :: s' =>
      if (c =? NL)%Z then [] :: split_nl s'
      else match split_nl s' with
           | l :: ls => (c :: l) :: ls
           | [] => [[c]]
           end
  end.

(** [str(n)] for an [int]. *)
Definition str_of_int (n : Z) : str :=
  lit (NilZero.string_of_int (Z.to_int n)).

(** [l[lo:hi]] for non-negative bounds (out-of-range bounds are clamped). *)
Definition slice {A} (l : list A) (lo hi : nat) : list A :=
  take (hi - lo) (drop lo l).

(** [any(flags)] *)
Definition any (flags : list bool) : bool := existsb id flags.

(** ** Exceptions *)

Inductive exn :=
  | UnicodeEncodeError
  | UnicodeDecodeError
  | ValueError
  | OSError.

Inductive result (A : Type) :=
  | Ok (a : A)
  | Raise (e : exn).
Arguments Ok {A} a.
Arguments Raise {A} e.

Definition bind {A B} (r : result A) (k : A → result B) : result B :=
  match r with
  | Ok a => k a
  | Raise e => Raise e
  end.

(** ** Constants of the module *)

Module MESSAGES.
Definition GOOD : str := lit "good".
Definition FAIL : str := lit "fail".
Definition WARN : str := lit "warn".
Definition INFO : str := lit "info".
End MESSAGES.

Definition COLORS : gmap (list Z) Z :=
  list_to_map
    [ (MESSAGES.GOOD, 2%Z);
      (MESSAGES.FAIL, 1%Z);
      (MESSAGES.WARN, 3%Z);
      (MESSAGES.INFO, 4%Z);
      (lit "red", 1%Z);
      (lit "green", 2%Z);
      (lit "yellow", 3%Z);
      (lit "blue", 4%Z);
      (lit "pink", 5%Z);
      (lit "cyan", 6%Z);
      (lit "white", 7%Z);
      (lit "grey", 8%Z);
      (lit "black", 16%Z) ].

Definition INSERT_SYMBOL : str := lit "+".
Definition DELETE_SYMBOL : str := lit "-".
Definition ENV_ANSI_DISABLED : str := lit "ANSI_COLORS_DISABLED".

(** ** [color] *)

(** The values [fg] and [bg] take: [None], an [int], or a [str]. *)
Inductive color_arg :=
  | NoColor
  | Index (n : Z)
  | Name (s : str).

(** [COLORS.get(c, c)]: the keys of [COLORS] are all strings. *)
Definition COLORS_get (c : color_arg) : color_arg :=
  match c with
  | Name s =>
      match COLORS !! s with
      | Some n => Index n
      | None => Name s
      end
  | _ => c
  end.

(** Python truth value of a colour argument. *)
Definition truthy (c : color_arg) : bool :=
  match c with
  | NoColor => false
  | Index n => negb (n =? 0)%Z
  | Name s => negb (bool_decide (s = []))
  end.

(** ["{}".format(c)] *)
Definition format_arg (c : color_arg) : str :=
  match c with
  | NoColor => lit "None"
  | Index n => str_of_int n
  | Name s => s
  end.

(** The list [styles] built by [color] from the resolved colours. *)
Definition styles_of (fg bg : color_arg) (bold underline : bool) : list str :=
  let styles := [] in
  let styles := if bold then styles ++ [lit "1"] else styles in
  let styles := if underline then styles ++ [lit "4"] else styles in
  let styles :=
    if truthy fg then styles ++ [lit "38;5;" ++ format_arg fg] else styles in
  let styles :=
    if truthy bg then styles ++ [lit "48;5;" ++ format_arg bg] else styles in
  styles.

(** ["\x1b[{}m{}\x1b[0m".format(codes, text)] *)
Definition escape (codes text : str) : str :=
  ESC :: lit "[" ++ codes ++ lit "m" ++ text ++ ESC :: lit "[0m".

Definition color (text : str) (fg bg : color_arg) (bold underline : bool) : str :=
  let fg := COLORS_get fg in
  let bg := COLORS_get bg in
  if negb (any [truthy fg; truthy bg; bold]) then text
  else escape (join (lit ";") (styles_of fg bg bold underline)) text.

(** ** [difflib.SequenceMatcher]

    [diff_strings] builds [difflib.SequenceMatcher(None, a, b)] and reads
    its [get_opcodes()].  The matcher of the standard library is embedded
    here method by method, for [isjunk = None] and [autojunk = True]. *)

Module difflib.

(** [Match(a, b, size)] *)
Definition Match : Type := nat * nat * nat.

Inductive tag := Equal | Insert | Delete | Replace.

(** An opcode [(tag, i1, i2, j1, j2)]. *)
Definition opcode : Type := tag * nat * nat * nat * nat.

Record SequenceMatcher := {
  a : list str;
  b : list str;
  b2j : gmap (list Z) (list nat);
  bjunk : gset (list Z);
  bpopular : gset (list Z);
}.

(** First loop of [__chain_b]:
    [for i, elt in enumerate(b): b2j.setdefault(elt, []).append(i)] *)
Definition index_elements (b : list str) : gmap (list Z) (list nat) :=
  fold_left
    (λ (m : gmap (list Z) (list nat)) '(i, elt),
       <[elt := default [] (m !! elt) ++ [i]]> m)
    (zip (seq 0 (length b)) b) ∅.

(** Last part of [__chain_b]: with [autojunk] and at least 200 elements,
    an element found at more than [n // 100 + 1] places is popular and
    loses its entry in [b2j]. *)
Definition popular_elements (n : nat) (m : gmap (list Z) (list nat)) : gset (list Z) :=
  if 200 <=? n then
    let ntest := n / 100 + 1 in
    dom (filter (λ kv, ntest < length kv.2) m)
  else ∅.

Definition purge (popular : gset (list Z)) (m : gmap (list Z) (list nat)) :
    gmap (list Z) (list nat) :=
  set_fold delete m popular.

(** [SequenceMatcher(None, a, b)]: no junk predicate, so [bjunk] is empty. *)
Definition new (a b : list str) : SequenceMatcher :=
  let m := index_elements b in
  let popular := popular_elements (length b) m in
  {| a := a; b := b; b2j := purge popular m; bjunk := ∅; bpopular := popular |}.

Definition isbjunk (sm : SequenceMatcher) (x : str) : bool :=
  bool_decide (x ∈ bjunk sm).

(** [a[i] == b[j]], both indices in range. *)
Definition same_at (sm : SequenceMatcher) (i j : nat) : bool :=
  match a sm !! i, b sm !! j with
  | Some x, Some y => bool_decide (x = y)
  | _, _ => false
  end.

(** [isbjunk(b[j])], or its negation when [want] is [false]. *)
Definition junk_at (sm : SequenceMatcher) (want : bool) (j : nat) : bool :=
  match b sm !! j with
  | Some y => eqb (isbjunk sm y) want
  | None => false
  end.

(** [j2len.get(j - 1, 0)] *)
Definition j2lenget (j2len : gmap nat nat) (j : nat) : nat :=
  match j with
  | 0 => 0
  | S j' => default 0 (j2len !! j')
  end.

(** The loop [for j in b2j.get(a[i], nothing)] of [find_longest_match],
    with its [continue] and [break]. *)
Fixpoint scan_row (j2len : gmap nat nat) (i blo bhi : nat) (js : list nat)
    (newj2len : gmap nat nat) (best : Match) : gmap nat nat * Match :=
  match js with
  | [] => (newj2len, best)
  | j :: js' =>
      if j <? blo then scan_row j2len i blo bhi js' newj2len best
      else if bhi <=? j then (newj2len, best)
      else
        let k := j2lenget j2len j + 1 in
        let newj2len := <[j := k]> newj2len in
        let best := if best.2 <? k then (i + 1 - k, j + 1 - k, k) else best in
        scan_row j2len i blo bhi js' newj2len best
  end.

(** [b2j.get(a[i], nothing)] *)
Definition places (sm : SequenceMatcher) (i : nat) : list nat :=
  match a sm !! i with
  | Some x => default [] (b2j sm !! x)
  | None => []
  end.

(** The loop [for i in range(alo, ahi)]. *)
Definition scan_rows (sm : SequenceMatcher) (alo ahi blo bhi : nat) :
    gmap nat nat * Match :=
  fold_left
    (λ '(j2len, best) i, scan_row j2len i blo bhi (places sm i) ∅ best)
    (seq alo (ahi - alo))
    (∅, (alo, blo, 0)).

(** [while besti > alo and bestj > blo and <junk test on b[bestj-1]> and
    a[besti-1] == b[bestj-1]: besti, bestj, bestsize = besti-1, bestj-1,
    bestsize+1] *)
Fixpoint extend_left (sm : SequenceMatcher) (want : bool) (alo blo : nat)
    (besti bestj bestsize : nat) {struct besti} : Match :=
  match besti, bestj with
  | S i', S j' =>
      if (alo <? besti) && (blo <? bestj) && junk_at sm want j' && same_at sm i' j'
      then extend_left sm want alo blo i' j' (S bestsize)
      else (besti, bestj, bestsize)
  | _, _ => (besti, bestj, bestsize)
  end.

(** [while besti+bestsize < ahi and bestj+bestsize < bhi and <junk test on
    b[bestj+bestsize]> and a[besti+bestsize] == b[bestj+bestsize]:
    bestsize += 1], run for at most [n] steps. *)
Fixpoint extend_right_steps (sm : SequenceMatcher) (want : bool) (ahi bhi : nat)
    (n : nat) (besti bestj bestsize : nat) : Match :=
  match n with
  | 0 => (besti, bestj, bestsize)
  | S n' =>
      if (besti + bestsize <? ahi) && (bestj + bestsize <? bhi)
         && junk_at sm want (bestj + bestsize)
         && same_at sm (besti + bestsize) (bestj + bestsize)
      then extend_right_steps sm want ahi bhi n' besti bestj (S bestsize)
      else (besti, bestj, bestsize)
  end.

(** The loop leaves once [besti + bestsize] reaches [ahi], after at most
    [ahi - (besti + bestsize)] steps. *)
Definition extend_right (sm : SequenceMatcher) (want : bool) (ahi bhi : nat)
    (m : Match) : Match :=
  let '(besti, bestj, bestsize) := m in
  extend_right_steps sm want ahi bhi (ahi - (besti + bestsize)) besti bestj bestsize.

Definition extend (sm : SequenceMatcher) (want : bool) (alo ahi blo bhi : nat)
    (m : Match) : Match :=
  let '(besti, bestj, bestsize) := m in
  extend_right sm want ahi bhi (extend_left sm want alo blo besti bestj bestsize).

Definition find_longest_match (sm : SequenceMatcher) (alo ahi blo bhi : nat) : Match :=
  let best := (scan_rows sm alo ahi blo bhi).2 in
  (* extend by non-junk elements on each end *)
  let best := extend sm false alo ahi blo bhi best in
  (* then by junk elements on each end *)
  extend sm true alo ahi blo bhi best.

(** Tuples compare lexicographically in [matching_blocks.sort()]. *)
Definition Match_le (x y : Match) : Prop :=
  let '(i1, j1, k1) := x in
  let '(i2, j2, k2) := y in
  i1 < i2 ∨ (i1 = i2 ∧ (j1 < j2 ∨ (j1 = j2 ∧ k1 ≤ k2))).

Global Instance Match_le_dec x y : Decision (Match_le x y).
Proof. destruct x as [[i1 j1] k1], y as [[i2 j2] k2]. unfold Match_le. apply _. Defined.

(** A pending pair of ranges [(alo, ahi, blo, bhi)]. *)
Definition ranges : Type := nat * nat * nat * nat.

(** The loop [while queue] of [get_matching_blocks].  [queue] is used as a
    stack: its head here is the last element of the Python list, the one
    [queue.pop()] takes and after which [queue.append] puts.  [steps]
    bounds the number of iterations; [None] when it does not suffice. *)
Fixpoint match_ranges (sm : SequenceMatcher) (steps : nat) (queue : list ranges)
    (matching_blocks : list Match) : option (list Match) :=
  match queue with
  | [] => Some matching_blocks
  | (alo, ahi, blo, bhi) :: queue =>
      match steps with
      | 0 => None
      | S steps =>
          let '(i, j, k) := find_longest_match sm alo ahi blo bhi in
          if k =? 0 then match_ranges sm steps queue matching_blocks
          else
            let matching_blocks := matching_blocks ++ [(i, j, k)] in
            let queue :=
              if (alo <? i) && (blo <? j) then (alo, i, blo, j) :: queue else queue in
            let queue :=
              if (i + k <? ahi) && (j + k <? bhi)
              then (i + k, ahi, j + k, bhi) :: queue else queue in
            match_ranges sm steps queue matching_blocks
      end
  end.

(** The loop collapsing adjacent blocks; [(i1, j1, k1)] is the block
    compared against. *)
Fixpoint collapse (i1 j1 k1 : nat) (non_adjacent : list Match)
    (matching_blocks : list Match) : list Match :=
  match matching_blocks with
  | [] => if k1 =? 0 then non_adjacent else non_adjacent ++ [(i1, j1, k1)]
  | (i2, j2, k2) :: rest =>
      if (i1 + k1 =? i2) && (j1 + k1 =? j2)
      then collapse i1 j1 (k1 + k2) non_adjacent rest
      else
        let non_adjacent :=
          if k1 =? 0 then non_adjacent else non_adjacent ++ [(i1, j1, k1)] in
        collapse i2 j2 k2 non_adjacent rest
  end.

(** Enough iterations for any queue reached from [(0, la, 0, lb)]. *)
Definition enough_steps (la : nat) : nat := 2 * la + 1.

Definition get_matching_blocks (sm : SequenceMatcher) : option (list Match) :=
  let la := length (a sm) in
  let lb := length (b sm) in
  matching_blocks ← match_ranges sm (enough_steps la) [(0, la, 0, lb)] [];
  let matching_blocks := merge_sort Match_le matching_blocks in
  let non_adjacent := collapse 0 0 0 [] matching_blocks in
  Some (non_adjacent ++ [(la, lb, 0)]).

(** The loop of [get_opcodes] over the matching blocks, from [(i, j)]. *)
Fixpoint opcodes_from (i j : nat) (blocks : list Match) : list opcode :=
  match blocks with
  | [] => []
  | (ai, bj, size) :: rest =>
      let tag :=
        if (i <? ai) && (j <? bj) then Some Replace
        else if i <? ai then Some Delete
        else if j <? bj then Some Insert
        else None in
      let answer :=
        match tag with
        | Some t => [(t, i, ai, j, bj)]
        | None => []
        end in
      let i' := ai + size in
      let j' := bj + size in
      let answer :=
        if size =? 0 then answer else answer ++ [(Equal, ai, i', bj, j')] in
      answer ++ opcodes_from i' j' rest
  end.

Definition get_opcodes (sm : SequenceMatcher) : option (list opcode) :=
  blocks ← get_matching_blocks sm;
  Some (opcodes_from 0 0 blocks).

(** *** Vocabulary of the properties of the matcher *)

(** A block lies in the pair of ranges it was searched in. *)
Definition in_box (alo ahi blo bhi : nat) (m : Match) : Prop :=
  let '(i, j, k) := m in alo ≤ i ∧ i + k ≤ ahi ∧ blo ≤ j ∧ j + k ≤ bhi.

(** The lengths kept in [j2len] when row [i] starts. *)
Definition row_ok (alo blo i : nat) (j2len : gmap nat nat) : Prop :=
  ∀ j v, j2len !! j = Some v → v + alo ≤ i ∧ v + blo ≤ j + 1.

(** The ranges a block covers in [a] and in [b]. *)
Definition block_ranges (m : Match) : ranges :=
  let '(i, j, k) := m in (i, i + k, j, j + k).

(** One pair of ranges lies wholly before the other, in [a] and in [b]. *)
Definition apart (r1 r2 : ranges) : Prop :=
  let '(alo1, ahi1, blo1, bhi1) := r1 in
  let '(alo2, ahi2, blo2, bhi2) := r2 in
  (ahi1 ≤ alo2 ∧ bhi1 ≤ blo2) ∨ (ahi2 ≤ alo1 ∧ bhi2 ≤ blo1).

Definition within (outer r : ranges) : Prop :=
  let '(alo, ahi, blo, bhi) := outer in
  let '(alo', ahi', blo', bhi') := r in
  alo ≤ alo' ∧ alo' ≤ ahi' ∧ ahi' ≤ ahi ∧ blo ≤ blo' ∧ blo' ≤ bhi' ∧ bhi' ≤ bhi.

(** What is left to do for a queue: it decreases at each iteration. *)
Definition weight (queue : list ranges) : nat :=
  sum_list_with (λ '(alo, ahi, _, _), 2 * (ahi - alo) + 1) queue.

(** Invariant of the loop of [get_matching_blocks]. *)
Definition pending_ok (la lb : nat) (queue : list ranges) (blocks : list Match) : Prop :=
  Forall (within (0, la, 0, lb)) queue
  ∧ Forall (λ m, 0 < m.2 ∧ within (0, la, 0, lb) (block_ranges m)) blocks
  ∧ ForallOrdPairs apart (queue ++ map block_ranges blocks).

(** Blocks in increasing order on both sides, from [(i, j)] up to
    [(la, lb)]. *)
Fixpoint ascending (i j la lb : nat) (blocks : list Match) : Prop :=
  match blocks with
  | [] => i ≤ la ∧ j ≤ lb
  | (ai, bj, size) :: rest =>
      i ≤ ai ∧ j ≤ bj ∧ ascending (ai + size) (bj + size) la lb rest
  end.

(** Opcodes that tile [a[i:la]] and [b[j:lb]]: each one starts where the
    previous one ends, and the last one ends at [(la, lb)]. *)
Fixpoint contiguous (i j la lb : nat) (ops : list opcode) : Prop :=
  match ops with
  | [] => i = la ∧ j = lb
  | (_, i1, i2, j1, j2) :: rest =>
      i1 = i ∧ j1 = j ∧ i1 ≤ i2 ∧ j1 ≤ j2 ∧ contiguous i2 j2 la lb rest
  end.

(** Line [k] of [a] (of [b]) belongs to the range of the opcode. *)
Definition covers_a (k : nat) (op : opcode) : bool :=
  let '(_, i1, i2, _, _) := op in (i1 <=? k) && (k <? i2).

Definition covers_b (k : nat) (op : opcode) : bool :=
  let '(_, _, _, j1, j2) := op in (j1 <=? k) && (k <? j2).

(** Places of [x] in [b], counted from [k]. *)
Fixpoint indices_from (x : str) (k : nat) (b : list str) : list nat :=
  match b with
  | [] => []
  | y :: b' =>
      if decide (x = y) then k :: indices_from x (S k) b'
      else indices_from x (S k) b'
  end.

(** Number of consecutive elements ending at [i] that kept their entry in
    [b2j]. *)
Fixpoint diag_run (sm : SequenceMatcher) (i : nat) : nat :=
  match places sm i with
  | [] => 0
  | _ :: _ =>
      match i with
      | 0 => 1
      | S i' => diag_run sm i' + 1
      end
  end.

Definition diag_prev (sm : SequenceMatcher) (i : nat) : nat :=
  match i with
  | 0 => 0
  | S i' => diag_run sm i'
  end.

End difflib.

(** ** [diff_strings] *)

(** ["{} {}".format(symbol, item)] *)
Definition with_symbol (symbol item : str) : str :=
  symbol ++ lit " " ++ item.

(** The body of the loop over the opcodes: the lines it appends to
    [output]. *)
Definition render_opcode (a b : list str) (fg : color_arg)
    (bg : color_arg * color_arg) (add_symbols : bool)
    (op : difflib.opcode) : list str :=
  let '(opcode, a0, a1, b0, b1) := op in
  let equal :=
    match opcode with
    | difflib.Equal => slice a a0 a1
    | _ => []
    end in
  let inserted :=
    match opcode with
    | difflib.Insert | difflib.Replace =>
        map (λ item,
               let item := if add_symbols then with_symbol INSERT_SYMBOL item else item in
               color item fg bg.1 false false)
            (slice b b0 b1)
    | _ => []
    end in
  let deleted :=
    match opcode with
    | difflib.Delete | difflib.Replace =>
        map (λ item,
               let item := if add_symbols then with_symbol DELETE_SYMBOL item else item in
               color item fg bg.2 false false)
            (slice a a0 a1)
    | _ => []
    end in
  equal ++ inserted ++ deleted.

(** [None] only if the matcher ran out of steps, which does not happen
    (see [difflib_facts.get_opcodes_contiguous]). *)
Definition diff_strings (a b : str) (fg : color_arg) (bg : color_arg * color_arg)
    (add_symbols : bool) : option str :=
  let a := split_nl a in
  let b := split_nl b in
  let matcher := difflib.new a b in
  opcodes ← difflib.get_opcodes matcher;
  let output := concat (map (render_opcode a b fg bg add_symbols) opcodes) in
  Some (join [NL] output).

(** The default arguments of [diff_strings]. *)
Definition default_fg : color_arg := Name (lit "black").
Definition default_bg : color_arg * color_arg := (Name (lit "green"), Name (lit "red")).

(** ** Codecs: [str.encode] and [bytes.decode]

    [locale_escape] and [can_render] encode into [ENCODING], the encoding
    of [sys.stdout] fixed when the module is loaded.  The codecs of the
    standard library are embedded character by character; the bit
    patterns of UTF-8 are written with division and remainder. *)

(** The output encodings modelled. *)
Inductive encoding := ASCII | UTF_8 | LATIN_1.

(** The [errors] setting of [str.encode]. *)
Inductive errors := ErrStrict | ErrReplace | ErrIgnore.

(** A code point of Unicode; a [str] holds nothing else. *)
Definition is_code_point (c : Z) : Prop := (0 ≤ c ≤ 0x10FFFF)%Z.

Definition is_surrogate (c : Z) : bool := ((0xD800 <=? c) && (c <=? 0xDFFF))%Z.

(** The bytes of one character, [None] when the codec cannot encode it. *)
Definition encode_char (enc : encoding) (c : Z) : option bytes :=
  match enc with
  | ASCII => if (c <? 0x80)%Z then Some [c] else None
  | LATIN_1 => if (c <? 0x100)%Z then Some [c] else None
  | UTF_8 =>
      if (c <? 0x80)%Z then Some [c]
      else if (c <? 0x800)%Z then
        Some [0xC0 + c / 64; 0x80 + c mod 64]%Z
      else if is_surrogate c then None
      else if (c <? 0x10000)%Z then
        Some [0xE0 + c / 4096; 0x80 + (c / 64) mod 64; 0x80 + c mod 64]%Z
      else
        Some [0xF0 + c / 262144; 0x80 + (c / 4096) mod 64;
              0x80 + (c / 64) mod 64; 0x80 + c mod 64]%Z
  end.

Definition QUESTION_MARK : Z := 63.

(** [s.encode(enc, errors)] *)
Fixpoint encode (enc : encoding) (err : errors) (s : str) : result bytes :=
  match s with
  | [] => Ok []
  | c :: s' =>
      match encode_char enc c with
      | Some bs => bind (encode enc err s') (λ rest, Ok (bs ++ rest))
      | None =>
          match err with
          | ErrStrict => Raise UnicodeEncodeError
          | ErrReplace => bind (encode enc err s') (λ rest, Ok (QUESTION_MARK :: rest))
          | ErrIgnore => encode enc err s'
          end
      end
  end.

(** A continuation byte [10xxxxxx]. *)
Definition is_cont (b : Z) : bool := ((0x80 <=? b) && (b <? 0xC0))%Z.

(** [bs.decode("utf8")], strict: overlong forms, surrogates, code points
    above U+10FFFF and truncated sequences raise. *)
Fixpoint decode_utf8 (bs : bytes) : result str :=
  match bs with
  | [] => Ok []
  | b0 :: rest =>
      if (b0 <? 0x80)%Z then
        bind (decode_utf8 rest) (λ s, Ok (b0 :: s))
      else if (b0 <? 0xC2)%Z then Raise UnicodeDecodeError
      else if (b0 <? 0xE0)%Z then
        match rest with
        | b1 :: rest =>
            if is_cont b1 then
              let c := ((b0 - 0xC0) * 64 + (b1 - 0x80))%Z in
              bind (decode_utf8 rest) (λ s, Ok (c :: s))
            else Raise UnicodeDecodeError
        | _ => Raise UnicodeDecodeError
        end
      else if (b0 <? 0xF0)%Z then
        match rest with
        | b1 :: b2 :: rest =>
            if is_cont b1 && is_cont b2 then
              let c := ((b0 - 0xE0) * 4096 + (b1 - 0x80) * 64 + (b2 - 0x80))%Z in
              if (c <? 0x800)%Z || is_surrogate c then Raise UnicodeDecodeError
              else bind (decode_utf8 rest) (λ s, Ok (c :: s))
            else Raise UnicodeDecodeError
        | _ => Raise UnicodeDecodeError
        end
      else if (b0 <? 0xF5)%Z then
        match rest with
        | b1 :: b2 :: b3 :: rest =>
            if is_cont b1 && is_cont b2 && is_cont b3 then
              let c := ((b0 - 0xF0) * 262144 + (b1 - 0x80) * 4096
                        + (b2 - 0x80) * 64 + (b3 - 0x80))%Z in
              if (c <? 0x10000)%Z || (0x10FFFF <? c)%Z then Raise UnicodeDecodeError
              else bind (decode_utf8 rest) (λ s, Ok (c :: s))
            else Raise UnicodeDecodeError
        | _ => Raise UnicodeDecodeError
        end
      else Raise UnicodeDecodeError
  end.

(** [ENCODING = STDOUT_ENCODING or "ascii"], where [STDOUT_ENCODING] is the
    encoding of [sys.stdout], or [None]. *)
Definition ENCODING (STDOUT_ENCODING : option encoding) : encoding :=
  default ASCII STDOUT_ENCODING.

(** [to_string] leaves a [str] as it is. *)
Definition to_string (text : str) : str := text.

Definition locale_escape (ENCODING : encoding) (string : str) (err : errors) :
    result str :=
  let string := to_string string in
  bind (encode ENCODING err string) decode_utf8.

(** [try: string.encode(ENCODING); return True]
    [except UnicodeEncodeError: return False] *)
Definition can_render (ENCODING : encoding) (string : str) : result bool :=
  match encode ENCODING ErrStrict string with
  | Ok _ => Ok true
  | Raise UnicodeEncodeError => Ok false
  | Raise e => Raise e
  end.

(** The bytes the codec writes are UTF-8 as well. *)
Definition utf8_compatible (enc : encoding) : bool :=
  match enc with
  | ASCII | UTF_8 => true
  | LATIN_1 => false
  end.

(** What ["replace"] leaves of a character: itself, or a question mark. *)
Definition escaped (enc : encoding) (c : Z) : Z :=
  match encode_char enc c with
  | Some _ => c
  | None => QUESTION_MARK
  end.

(** ** The environment, the platform and the Windows console *)

(** The console behind [sys.stdout] on Windows.  [mode] holds its mode
    flags, [None] when [GetConsoleMode] fails (the handle is no console);
    [accepts flags] is the mode in effect after [SetConsoleMode(flags)],
    [None] when the call fails. *)
Record console := {
  mode : option Z;
  accepts : Z → option Z;
}.

(** [msvcrt.get_osfhandle(sys.stdout.fileno())] gives the console, or
    raises [OSError] when there is no handle ([None]). *)
Definition world : Type := option console.

Definition ENABLE_VIRTUAL_TERMINAL_PROCESSING : Z := 0x0004.

Definition GetConsoleMode (handle : console) : result Z :=
  match mode handle with
  | Some flags => Ok flags
  | None => Raise OSError
  end.

Definition SetConsoleMode (handle : console) (flags : Z) : result console :=
  match accepts handle flags with
  | Some flags' => Ok {| mode := Some flags'; accepts := accepts handle |}
  | None => Raise OSError
  end.

(** The value returned, and the console as the call leaves it.  The body
    of the [try] turns an [OSError] into [False]; fetching the handle is
    outside of it. *)
Definition _windows_console_supports_ansi (w : world) : result bool * world :=
  match w with
  | None => (Raise OSError, w)
  | Some console =>
      match GetConsoleMode console with
      | Raise _ => (Ok false, w)
      | Ok flags =>
          match SetConsoleMode console (Z.lor flags ENABLE_VIRTUAL_TERMINAL_PROCESSING) with
          | Raise _ => (Ok false, w)
          | Ok console =>
              match GetConsoleMode console with
              | Raise _ => (Ok false, Some console)
              | Ok flags =>
                  if (Z.land flags ENABLE_VIRTUAL_TERMINAL_PROCESSING =? 0)%Z
                  then (Ok false, Some console)
                  else (Ok true, Some console)
              end
          end
      end
  end.

(** Truth value of [os.getenv(name)]: set, and not to the empty string. *)
Definition getenv_truthy (environ : gmap (list Z) (list Z)) (name : str) : bool :=
  match environ !! name with
  | Some (_ :: _) => true
  | _ => false
  end.

Definition supports_ansi (environ : gmap (list Z) (list Z)) (platform : str)
    (w : world) : result bool * world :=
  if getenv_truthy environ ENV_ANSI_DISABLED then (Ok false, w)
  else if bool_decide (platform = lit "win32") then
    if bool_decide (is_Some (environ !! lit "ANSICON")) then (Ok true, w)
    else _windows_console_supports_ansi w
  else (Ok true, w).

(** ** [textwrap]

    [wrap] calls [textwrap.fill] with [break_long_words=False] and
    [break_on_hyphens=False]; the other options of [TextWrapper] keep
    their defaults ([expand_tabs], [replace_whitespace] and
    [drop_whitespace] on, [tabsize=8], no [max_lines], no
    [fix_sentence_endings]).  The wrapper is embedded for these
    settings. *)

Module textwrap.

Record TextWrapper := {
  width : Z;
  initial_indent : str;
  subsequent_indent : str;
}.

Definition SPACE : Z := 32.
Definition TAB : Z := 9.
Definition CR : Z := 13.

(** [_whitespace = '\t\n\x0b\x0c\r '] *)
Definition in_whitespace (c : Z) : bool :=
  ((9 <=? c) && (c <=? 13) || (c =? 32))%Z.

(** [str.isspace] for one character: what [str.strip()] removes. *)
Definition isspace (c : Z) : bool :=
  ((9 <=? c) && (c <=? 13) || (0x1C <=? c) && (c <=? 0x20)
   || (c =? 0x85) || (c =? 0xA0) || (c =? 0x1680)
   || (0x2000 <=? c) && (c <=? 0x200A)
   || (c =? 0x2028) || (c =? 0x2029) || (c =? 0x202F) || (c =? 0x205F)
   || (c =? 0x3000))%Z.

(** [chunk.strip() == ''] *)
Definition blank (chunk : str) : bool := forallb isspace chunk.

(** [text.expandtabs(8)], from column [col]. *)
Fixpoint expandtabs_from (col : nat) (text : str) : str :=
  match text with
  | [] => []
  | c :: rest =>
      if (c =? TAB)%Z then
        let incr := 8 - col mod 8 in
        replicate incr SPACE ++ expandtabs_from (col + incr) rest
      else if (c =? NL)%Z || (c =? CR)%Z then c :: expandtabs_from 0 rest
      else c :: expandtabs_from (S col) rest
  end.

(** [_munge_whitespace]: expand the tabs, then turn each whitespace
    character into a space. *)
Definition _munge_whitespace (text : str) : str :=
  let text := expandtabs_from 0 text in
  map (λ c, if in_whitespace c then SPACE else c) text.

(** [_split] with [wordsep_simple_re]: the maximal runs of whitespace and
    of other characters, in order. *)
Fixpoint _split (text : str) : list str :=
  match text with
  | [] => []
  | c :: rest =>
      match _split rest with
      | (d :: chunk) :: chunks =>
          if eqb (in_whitespace c) (in_whitespace d)
          then (c :: d :: chunk) :: chunks
          else [c] :: (d :: chunk) :: chunks
      | [] :: chunks => [c] :: chunks
      | [] => [[c]]
      end
  end.

Definition _split_chunks (text : str) : list str :=
  _split (_munge_whitespace text).

Definition len (s : str) : Z := Z.of_nat (length s).

(** The loop putting on [cur_line] the chunks that fit in [width]; the
    head of [chunks] is the next chunk (the last one of the reversed
    list of the source). *)
Fixpoint fill_line (width : Z) (chunks : list str) (cur_line : list str)
    (cur_len : Z) : list str * list str :=
  match chunks with
  | [] => (cur_line, [])
  | chunk :: rest =>
      if (cur_len + len chunk <=? width)%Z
      then fill_line width rest (cur_line ++ [chunk]) (cur_len + len chunk)
      else (cur_line, chunks)
  end.

(** [_handle_long_word] without [break_long_words]: a chunk too long for
    any line goes alone on an empty line. *)
Definition _handle_long_word (chunks cur_line : list str) : list str * list str :=
  match cur_line, chunks with
  | [], chunk :: rest => ([chunk], rest)
  | _, _ => (cur_line, chunks)
  end.

(** One iteration of [while chunks] in [_wrap_chunks]: the line made, if
    any, and the chunks left. *)
Definition next_line (w : TextWrapper) (lines : list str) (chunks : list str) :
    option str * list str :=
  let indent :=
    match lines with
    | [] => initial_indent w
    | _ => subsequent_indent w
    end in
  let width := (width w - len indent)%Z in
  (* a whitespace chunk does not start a line, except the first one *)
  let chunks :=
    match chunks, lines with
    | chunk :: rest, _ :: _ => if blank chunk then rest else chunks
    | _, _ => chunks
    end in
  let '(cur_line, chunks) := fill_line width chunks [] 0 in
  let '(cur_line, chunks) :=
    match chunks with
    | chunk :: _ =>
        if (width <? len chunk)%Z then _handle_long_word chunks cur_line
        else (cur_line, chunks)
    | [] => (cur_line, chunks)
    end in
  (* a whitespace chunk does not end a line *)
  let cur_line :=
    match last cur_line with
    | Some chunk => if blank chunk then removelast cur_line else cur_line
    | None => cur_line
    end in
  match cur_line with
  | [] => (None, chunks)
  | _ => (Some (indent ++ concat cur_line), chunks)
  end.

(** [while chunks], run for at most [n] iterations; the lines, and the
    chunks not yet placed. *)
Fixpoint wrap_loop (w : TextWrapper) (n : nat) (chunks : list str)
    (lines : list str) : list str * list str :=
  match chunks, n with
  | [], _ => (lines, [])
  | _, 0 => (lines, chunks)
  | _, S n =>
      let '(line, chunks) := next_line w lines chunks in
      let lines :=
        match line with
        | Some line => lines ++ [line]
        | None => lines
        end in
      wrap_loop w n chunks lines
  end.

(** Each iteration takes at least one chunk, so [length chunks]
    iterations place them all (see [wrap_loop_places_all]). *)
Definition _wrap_chunks (w : TextWrapper) (chunks : list str) : result (list str) :=
  if (width w <=? 0)%Z then Raise ValueError
  else Ok (wrap_loop w (length chunks) chunks []).1.

Definition wrap (w : TextWrapper) (text : str) : result (list str) :=
  _wrap_chunks w (_split_chunks text).

Definition fill (w : TextWrapper) (text : str) : result str :=
  bind (wrap w text) (λ lines, Ok (join [NL] lines)).

End textwrap.

(** ** [wrap] *)

Definition wrap (text : str) (wrap_max indent : Z) : result str :=
  let indent := replicate (Z.to_nat indent) textwrap.SPACE in
  let wrap_width := (wrap_max - textwrap.len indent)%Z in
  let text := to_string text in
  textwrap.fill
    {| textwrap.width := wrap_width;
       textwrap.initial_indent := indent;
       textwrap.subsequent_indent := indent |}
    text.

(** The wrap of the specification, in its words: a greedy word wrap of the
    text at the usable width [maxWidth - indentSpaces], each line then
    prefixed with [indentSpaces] spaces, so that a line is at most
    [maxWidth] wide with its indentation. *)
Definition wrap_spec (text : str) (maxWidth indentSpaces : Z) : result str :=
  let indent := replicate (Z.to_nat indentSpaces) textwrap.SPACE in
  let usable := (maxWidth - indentSpaces)%Z in
  bind
    (textwrap.fill
       {| textwrap.width := usable;
          textwrap.initial_indent := [];
          textwrap.subsequent_indent := [] |}
       text)
    (λ wrapped, Ok (join [NL] (map (λ line, indent ++ line) (split_nl wrapped)))).

(** ** Vocabulary of the properties of the opcodes *)

(** A block whose elements are pairwise the same in [a] and in [b]. *)
Definition real_match (sm : difflib.SequenceMatcher) (m : difflib.Match) : Prop :=
  let '(i, j, k) := m in ∀ t, t < k → difflib.same_at sm (i + t) (j + t) = true.

(** The places kept in [b2j] for an element are places of it in [b]. *)
Definition b2j_sound (sm : difflib.SequenceMatcher) : Prop :=
  ∀ x js j, difflib.b2j sm !! x = Some js → j ∈ js → difflib.b sm !! j = Some x.

(** The lengths kept in [j2len] when row [i] starts are lengths of runs of
    equal elements, ending just before [a[i]] and at [b[j]]. *)
Definition row_real (sm : difflib.SequenceMatcher) (i : nat) (j2len : gmap nat nat) : Prop :=
  ∀ j v, j2len !! j = Some v →
    ∃ i0 j0, i0 + v = i ∧ j0 + v = S j
      ∧ ∀ t, t < v → difflib.same_at sm (i0 + t) (j0 + t) = true.

(** The tag of an opcode fits its ranges. *)
Definition well_tagged (op : difflib.opcode) : Prop :=
  let '(tag, i1, i2, j1, j2) := op in
  match tag with
  | difflib.Equal => i1 < i2 ∧ i2 - i1 = j2 - j1
  | difflib.Insert => i1 = i2 ∧ j1 < j2
  | difflib.Delete => i1 < i2 ∧ j1 = j2
  | difflib.Replace => i1 < i2 ∧ j1 < j2
  end.

Definition is_equal (op : difflib.opcode) : bool :=
  let '(tag, _, _, _, _) := op in
  match tag with
  | difflib.Equal => true
  | _ => false
  end.

(** The lines of [a] and of [b] in the ranges of an opcode. *)
Definition a_lines (a : list str) (op : difflib.opcode) : list str :=
  let '(_, i1, i2, _, _) := op in slice a i1 i2.

Definition b_lines (b : list str) (op : difflib.opcode) : list str :=
  let '(_, _, _, j1, j2) := op in slice b j1 j2.

(** An [equal] opcode, seen as a block. *)
Definition equal_ranges_agree (sm : difflib.SequenceMatcher) (op : difflib.opcode) : Prop :=
  let '(tag, i1, i2, j1, j2) := op in
  match tag with
  | difflib.Equal => real_match sm (i1, j1, i2 - i1)
  | _ => True
  end.

(** Number of lines under [equal] opcodes. *)
Definition equal_count (ops : list difflib.opcode) : nat :=
  sum_list_with (λ op, let '(_, i1, i2, _, _) := op in if is_equal op then i2 - i1 else 0) ops.

(** The indentation [indent * " "] and the wrapper [wrap] builds. *)
Definition indentation (indent : Z) : str :=
  replicate (Z.to_nat indent) textwrap.SPACE.

Definition wrapper (wrap_max indent : Z) : textwrap.TextWrapper :=
  {| textwrap.width := (wrap_max - textwrap.len (indentation indent))%Z;
     textwrap.initial_indent := indentation indent;
     textwrap.subsequent_indent := indentation indent |}.

(** A chunk [str.strip()] does not empty. *)
Definition nonblank (chunk : str) : bool := negb (textwrap.blank chunk).

(** What a line holds: chunks that fit together in the width left by the
    indentation, or a single chunk. *)
Definition fits (w : textwrap.TextWrapper) (taken : list str) : Prop :=
  (textwrap.len (textwrap.initial_indent w) + textwrap.len (concat taken)
   ≤ textwrap.width w)%Z
  ∨ length taken = 1.

(** ** [NO_UTF8] and [ICONS] *)



(** A character the codec encodes. *)
Definition encodable (enc : encoding) (c : Z) : bool :=
  match encode_char enc c with
  | Some _ => true
  | None => false
  end.


(** ** [format_repr] *)

(** An index of a slice, clamped as Python does: a negative one counts
    from the end. *)
Definition slice_index (n : nat) (i : Z) : nat :=
  if (i <? 0)%Z then Z.to_nat (Z.max 0 (Z.of_nat n + i))
  else Z.to_nat (Z.min i (Z.of_nat n)).

(** [s[:stop]] and [s[start:]] *)
Definition slice_to (s : str) (stop : Z) : str := take (slice_index (length s) stop) s.
Definition slice_from (s : str) (start : Z) : str := drop (slice_index (length s) start) s.

(** [format_repr], from [string = repr(obj)] on.  [int(max_len / 2)] is
    the quotient rounded towards zero; the division is a floating-point
    one, exact for [max_len] up to [2^53] in absolute value. *)
Definition format_repr (string : str) (max_len : Z) (ellipsis : str) : str :=
  if (max_len <=? Z.of_nat (length string))%Z then
    let half := (max_len ÷ 2)%Z in
    slice_to string half ++ lit " " ++ ellipsis ++ lit " " ++ slice_from string (- half)
  else string.

(** ** [get_raw_input] *)

(** The prompt [get_raw_input] hands to [input_]; [default] is [None]
    for [False] and [None]. *)
Definition prompt (description : str) (default : option str) (indent : Z) : result str :=
  let additional :=
    match default with
    | Some (c :: d) => lit " (default: " ++ (c :: d) ++ lit ")"
    | _ => []
    end in
  wrap (description ++ additional ++ lit ": ") 80 indent.


(** The colon that ends the prompt. *)
Definition COLON : Z := 58.

(* ===================================================================== *)
(** * Part II: properties *)
(* ===================================================================== *)

(** ** [color] *)

Section color_facts.
Implicit Types (t : str) (fg bg : color_arg) (bold underline : bool).

Lemma escape_length codes t :
  length (escape codes t) = 7 + length codes + length t.
Proof.
  unfold escape. cbn [length]. rewrite !length_app. cbn. lia.
Qed.

Lemma escape_neq codes t : escape codes t ≠ t.
Proof.
  intros H. apply (f_equal length) in H. rewrite escape_length in H. lia.
Qed.

Lemma COLORS_red : COLORS !! lit "red" = Some 1%Z.
Proof. vm_compute. reflexivity. Qed.

Lemma COLORS_green : COLORS !! lit "green" = Some 2%Z.
Proof. vm_compute. reflexivity. Qed.

Lemma COLORS_black : COLORS !! lit "black" = Some 16%Z.
Proof. vm_compute. reflexivity. Qed.

(** C4. [color] returns the text unchanged exactly when none of the
    resolved [fg], the resolved [bg] and [bold] is truthy, whatever
    [underline] is; otherwise, and only then, it wraps the text in
    [ESC[<styles>m ... ESC[0m].  With all defaults, and with [underline]
    alone, the text comes back as it is. *)
Theorem color_styled_iff_truthy t fg bg bold underline :
  let styled := any [truthy (COLORS_get fg); truthy (COLORS_get bg); bold] in
  color t fg bg bold underline =
    (if styled
     then escape (join (lit ";")
                    (styles_of (COLORS_get fg) (COLORS_get bg) bold underline)) t
     else t)
  ∧ (color t fg bg bold underline = t ↔ styled = false)
  ∧ ((∃ codes, color t fg bg bold underline = escape codes t) ↔ styled = true)
  ∧ color t NoColor NoColor false true = t
  ∧ color t NoColor NoColor false false = t.
Proof.
  intros styled. unfold color. fold styled.
  destruct styled; cbn [negb].
  - split; [done|]. split; [|split; [|done]].
    + split; [intros H; by apply escape_neq in H | done].
    + split; [done | eauto].
  - split; [done|]. split; [done|]. split; [|done].
    split; [|done]. intros [codes H]. symmetry in H. by apply escape_neq in H.
Qed.

(** C5. [color(t, fg="red", bold=True)] is [ESC[1;38;5;1m], then [t], then
    [ESC[0m]: "red" is entry 1 of [COLORS], and the styles ["1"] and
    ["38;5;1"] are joined with [";"]. *)
Theorem color_red_bold t :
  COLORS !! lit "red" = Some 1%Z
  ∧ styles_of (COLORS_get (Name (lit "red"))) (COLORS_get NoColor) true false
    = [lit "1"; lit "38;5;1"]
  ∧ color t (Name (lit "red")) NoColor true false
    = ESC :: lit "[1;38;5;1m" ++ t ++ ESC :: lit "[0m".
Proof.
  split; [apply COLORS_red|].
  unfold color, COLORS_get. rewrite COLORS_red. split; reflexivity.
Qed.

(** C10. Palette index 0 given as [fg] or [bg] (or both), without [bold],
    counts as no colour at all: the text comes back unchanged, with or
    without [underline]. *)
Theorem color_index_zero_ignored t underline :
  color t (Index 0) NoColor false underline = t
  ∧ color t NoColor (Index 0) false underline = t
  ∧ color t (Index 0) (Index 0) false underline = t.
Proof. repeat split. Qed.

End color_facts.

(** ** [difflib.SequenceMatcher] *)

Module difflib_facts.
Import difflib.

Section find_longest_match_facts.
Context (sm : SequenceMatcher).
Implicit Types (m best : Match) (j2len : gmap nat nat).

Lemma row_ok_empty alo blo i : row_ok alo blo i ∅.
Proof. intros j v. by rewrite lookup_empty. Qed.

Lemma j2lenget_bound alo blo i j2len j :
  row_ok alo blo i j2len → alo ≤ i → blo ≤ j →
  j2lenget j2len j + alo ≤ i ∧ j2lenget j2len j + blo ≤ j.
Proof.
  intros Hrow Hi Hj. destruct j as [|j']; cbn; [lia|].
  destruct (j2len !! j') as [v|] eqn:E; cbn; [|lia].
  apply Hrow in E. lia.
Qed.

Lemma scan_row_ok alo ahi blo bhi i j2len js newj2len best :
  alo ≤ i → i < ahi →
  row_ok alo blo i j2len →
  row_ok alo blo (S i) newj2len →
  in_box alo ahi blo bhi best →
  row_ok alo blo (S i) (scan_row j2len i blo bhi js newj2len best).1
  ∧ in_box alo ahi blo bhi (scan_row j2len i blo bhi js newj2len best).2.
Proof.
  intros Hlo Hhi Hrow. revert newj2len best.
  induction js as [|j js IH]; intros newj2len best Hnew Hbest; cbn [scan_row]; [done|].
  destruct (Nat.ltb_spec j blo); [by apply IH|].
  destruct (Nat.leb_spec bhi j); [done|].
  destruct (j2lenget_bound alo blo i j2len j) as [Ha Hb]; [done..|].
  apply IH.
  - intros j' v. rewrite lookup_insert. case_decide; [|by apply Hnew].
    intros [= <-]. subst. lia.
  - destruct best as [[bi bj] bk]. cbn [snd]. destruct (Nat.ltb_spec bk (j2lenget j2len j + 1)); [|done].
    cbn. lia.
Qed.

Lemma scan_rows_from_ok alo ahi blo bhi n s (st : gmap nat nat * Match) :
  alo ≤ s → s + n ≤ ahi →
  row_ok alo blo s st.1 → in_box alo ahi blo bhi st.2 →
  in_box alo ahi blo bhi
    (fold_left (λ '(j2len, best) i, scan_row j2len i blo bhi (places sm i) ∅ best)
       (seq s n) st).2.
Proof.
  revert s st. induction n as [|n IH]; intros s [j2len best] Hs Hn Hrow Hbest; cbn; [done|].
  destruct (scan_row_ok alo ahi blo bhi s j2len (places sm s) ∅ best) as [H1 H2];
    [lia|lia|done|apply row_ok_empty|done|].
  apply IH; [lia|lia|..].
  - by destruct (scan_row _ _ _ _ _ _ _).
  - by destruct (scan_row _ _ _ _ _ _ _).
Qed.

Lemma scan_rows_in_box alo ahi blo bhi :
  alo ≤ ahi → blo ≤ bhi →
  in_box alo ahi blo bhi (scan_rows sm alo ahi blo bhi).2.
Proof.
  intros Ha Hb. unfold scan_rows.
  apply scan_rows_from_ok; cbn; [lia|lia|apply row_ok_empty|lia].
Qed.

Lemma extend_left_in_box want alo ahi blo bhi besti bestj bestsize :
  in_box alo ahi blo bhi (besti, bestj, bestsize) →
  in_box alo ahi blo bhi (extend_left sm want alo blo besti bestj bestsize).
Proof.
  revert bestj bestsize. induction besti as [|i' IH]; intros bestj bestsize H; [done|].
  cbn [extend_left]. destruct bestj as [|j']; [done|].
  destruct (_ && _) eqn:E; [|done].
  apply IH. rewrite !andb_true_iff, !Nat.ltb_lt in E. cbn in *. lia.
Qed.

Lemma extend_right_steps_in_box want alo ahi blo bhi n besti bestj bestsize :
  in_box alo ahi blo bhi (besti, bestj, bestsize) →
  in_box alo ahi blo bhi (extend_right_steps sm want ahi bhi n besti bestj bestsize).
Proof.
  revert bestsize. induction n as [|n IH]; intros bestsize H; [done|].
  cbn [extend_right_steps]. destruct (_ && _) eqn:E; [|done].
  apply IH. rewrite !andb_true_iff, !Nat.ltb_lt in E. cbn in *. lia.
Qed.

(** The steps granted to [extend_right_steps] never run out before the
    condition of the loop fails. *)
Lemma extend_right_steps_done want ahi bhi n besti bestj :
  ∀ bestsize, ahi ≤ besti + bestsize + n →
    let '(i, j, k) := extend_right_steps sm want ahi bhi n besti bestj bestsize in
    (i + k <? ahi) && (j + k <? bhi) && junk_at sm want (j + k) && same_at sm (i + k) (j + k)
    = false.
Proof.
  induction n as [|n IH]; intros bestsize Hn; cbn [extend_right_steps].
  - destruct (Nat.ltb_spec (besti + bestsize) ahi); [lia|done].
  - destruct (_ && _) eqn:E; [|done]. apply IH. lia.
Qed.

Lemma extend_in_box want alo ahi blo bhi m :
  in_box alo ahi blo bhi m → in_box alo ahi blo bhi (extend sm want alo ahi blo bhi m).
Proof.
  destruct m as [[i j] k]. intros H. unfold extend.
  pose proof (extend_left_in_box want alo ahi blo bhi i j k H) as H'.
  destruct (extend_left _ _ _ _ _ _ _) as [[i' j'] k']. unfold extend_right.
  by apply extend_right_steps_in_box.
Qed.

Lemma find_longest_match_in_box alo ahi blo bhi :
  alo ≤ ahi → blo ≤ bhi →
  in_box alo ahi blo bhi (find_longest_match sm alo ahi blo bhi).
Proof.
  intros Ha Hb. unfold find_longest_match.
  do 2 apply extend_in_box. by apply scan_rows_in_box.
Qed.

End find_longest_match_facts.

Global Instance apart_sym : Symmetric apart.
Proof. intros [[[??]?]?] [[[??]?]?]. unfold apart. tauto. Qed.

Lemma apart_within r r' x : within r r' → apart r x → apart r' x.
Proof. destruct r as [[[??]?]?], r' as [[[??]?]?], x as [[[??]?]?]. unfold within, apart. lia. Qed.

Lemma within_trans r1 r2 r3 : within r1 r2 → within r2 r3 → within r1 r3.
Proof. destruct r1 as [[[??]?]?], r2 as [[[??]?]?], r3 as [[[??]?]?]. unfold within. lia. Qed.

Lemma ForallOrdPairs_Permutation {A} (R : relation A) `{!Symmetric R} l1 l2 :
  l1 ≡ₚ l2 → ForallOrdPairs R l1 → ForallOrdPairs R l2.
Proof.
  induction 1 as [|x l1 l2 Hp IH|x y l|l1 l2 l3 _ IH1 _ IH2]; intros H.
  - done.
  - inversion_clear H as [|? ? Hx Hl]. constructor; [by rewrite <- Hp | auto].
  - inversion_clear H as [|? ? Hy Hl]. inversion_clear Hl as [|? ? Hx Hl'].
    inversion_clear Hy as [|? ? Hyx Hy']. repeat constructor; auto.
  - auto.
Qed.

Lemma ForallOrdPairs_tail {A} (R : relation A) x l :
  ForallOrdPairs R (x :: l) → ForallOrdPairs R l.
Proof. by inversion 1. Qed.

Section match_ranges_facts.
Context (sm : SequenceMatcher).

Lemma match_ranges_ok la lb steps queue blocks :
  pending_ok la lb queue blocks →
  weight queue ≤ steps →
  ∃ res, match_ranges sm steps queue blocks = Some res ∧ pending_ok la lb [] res.
Proof.
  revert queue blocks. induction steps as [|steps IH]; intros queue blocks Hok Hw.
  { destruct queue as [|[[[alo ahi] blo] bhi] queue]; [by exists blocks|].
    unfold weight in Hw. cbn [sum_list_with] in Hw. lia. }
  destruct queue as [|[[[alo ahi] blo] bhi] queue]; [by exists blocks|].
  cbn [match_ranges].
  destruct Hok as (Hq & Hb & Hp).
  apply Forall_cons in Hq as [Hr Hq].
  assert (alo ≤ ahi ∧ blo ≤ bhi) as [Ha Hb'] by (cbn in Hr; lia).
  pose proof (find_longest_match_in_box sm alo ahi blo bhi Ha Hb') as Hbox.
  destruct (find_longest_match sm alo ahi blo bhi) as [[i j] k].
  unfold weight in *. cbn [sum_list_with] in Hw. cbn in Hbox.
  destruct (Nat.eqb_spec k 0) as [->|Hk].
  { apply IH; [|lia]. split_and!; [done..|]. by apply ForallOrdPairs_tail in Hp. }
  set (left := (alo, i, blo, j)). set (right := (i + k, ahi, j + k, bhi)).
  set (r := (alo, ahi, blo, bhi)) in *.
  assert (within r left) as Hl by (cbn; lia).
  assert (within r right) as Hrt by (cbn; lia).
  assert (within r (block_ranges (i, j, k))) as Hm by (cbn; lia).
  assert (ForallOrdPairs apart
            (right :: left :: block_ranges (i, j, k) :: queue ++ map block_ranges blocks))
    as Hall.
  { inversion_clear Hp as [|? ? Hrest Hp'].
    assert (∀ r', within r r' → Forall (apart r') (queue ++ map block_ranges blocks))
      as Hsub.
    { intros r' Hr'. eapply Forall_impl; [exact Hrest|]. intros x. by apply apart_within. }
    apply FOP_cons;
      [apply Forall_cons; split;
         [cbn; lia | apply Forall_cons; split; [cbn; lia | auto]]|].
    apply FOP_cons; [apply Forall_cons; split; [cbn; lia | auto]|].
    apply FOP_cons; auto. }
  assert (Forall (λ m, 0 < m.2 ∧ within (0, la, 0, lb) (block_ranges m))
            (blocks ++ [(i, j, k)])) as Hb2.
  { apply Forall_app. split; [done|]. constructor; [|done]. split; [cbn; lia|].
    by apply (within_trans _ r). }
  assert (within (0, la, 0, lb) left) by (by apply (within_trans _ r)).
  assert (within (0, la, 0, lb) right) by (by apply (within_trans _ r)).
  destruct ((alo <? i) && (blo <? j)) eqn:E1, ((i + k <? ahi) && (j + k <? bhi)) eqn:E2.
  - apply IH.
    + split_and!; [by repeat (apply Forall_cons; split; [done|])|done|].
      eapply (ForallOrdPairs_Permutation apart); [|exact Hall].
      rewrite map_app. cbn. fold left right. solve_Permutation.
    + subst left right. cbn [sum_list_with]. lia.
  - apply IH.
    + split_and!; [by repeat (apply Forall_cons; split; [done|])|done|].
      apply ForallOrdPairs_tail in Hall.
      eapply (ForallOrdPairs_Permutation apart); [|exact Hall].
      rewrite map_app. cbn. fold left. solve_Permutation.
    + subst left right. cbn [sum_list_with]. lia.
  - apply IH.
    + split_and!; [by repeat (apply Forall_cons; split; [done|])|done|].
      eapply (ForallOrdPairs_Permutation apart (right :: left :: _)) in Hall;
        [|apply perm_swap].
      apply ForallOrdPairs_tail in Hall.
      eapply (ForallOrdPairs_Permutation apart); [|exact Hall].
      rewrite map_app. cbn. fold right. solve_Permutation.
    + subst left right. cbn [sum_list_with]. lia.
  - apply IH.
    + split_and!; [done|done|].
      do 2 apply ForallOrdPairs_tail in Hall.
      eapply (ForallOrdPairs_Permutation apart); [|exact Hall].
      rewrite map_app. cbn. solve_Permutation.
    + lia.
Qed.

End match_ranges_facts.

Global Instance Match_le_total : Total Match_le.
Proof. intros [[??]?] [[??]?]. unfold Match_le. lia. Qed.

Global Instance Match_le_trans : Transitive Match_le.
Proof. intros [[??]?] [[??]?] [[??]?]. unfold Match_le. lia. Qed.

Section blocks_facts.
Implicit Types (blocks : list Match) (ops : list opcode).

Lemma ascending_start i j i' j' la lb blocks :
  i' ≤ i → j' ≤ j → ascending i j la lb blocks → ascending i' j' la lb blocks.
Proof. destruct blocks as [|[[??]?] ?]; cbn; intuition lia. Qed.

Lemma ascending_end i j la lb la' lb' blocks :
  la ≤ la' → lb ≤ lb' → ascending i j la lb blocks → ascending i j la' lb' blocks.
Proof.
  intros Ha Hb. revert i j. induction blocks as [|[[ai bj] k] rest IH]; intros i j; cbn.
  - lia.
  - intros (? & ? & ?). auto.
Qed.

Lemma ascending_app i j i' j' la lb blocks1 blocks2 :
  ascending i j i' j' blocks1 → ascending i' j' la lb blocks2 →
  ascending i j la lb (blocks1 ++ blocks2).
Proof.
  revert i j. induction blocks1 as [|[[ai bj] k] rest IH]; intros i j; cbn.
  - intros [??]. by apply ascending_start.
  - intros (? & ? & ?) ?. auto.
Qed.

Lemma sorted_ascending la lb blocks :
  StronglySorted Match_le blocks →
  ForallOrdPairs apart (map block_ranges blocks) →
  Forall (λ m, 0 < m.2 ∧ within (0, la, 0, lb) (block_ranges m)) blocks →
  ∀ i j, i ≤ la → j ≤ lb →
    Forall (λ m, i ≤ m.1.1 ∧ j ≤ m.1.2) blocks →
    ascending i j la lb blocks.
Proof.
  induction 1 as [|[[ai bj] k] rest Hs IH Hle]; intros Hp Hb i j Hi Hj Hlow; [done|].
  cbn [map] in Hp. inversion_clear Hp as [|? ? Hap Hp'].
  apply Forall_cons in Hb as [[Hk Hw] Hb]. apply Forall_cons in Hlow as [[??] _].
  cbn in *. split_and!; [done..|].
  apply IH; [done|done|lia|lia|].
  rewrite Forall_fmap in Hap.
  rewrite Forall_forall in Hap, Hle, Hb. apply Forall_forall.
  intros [[i2 j2] k2] Hin.
  specialize (Hap _ Hin). specialize (Hle _ Hin). specialize (Hb _ Hin).
  cbn in *. lia.
Qed.

Lemma collapse_ascending la lb blocks :
  ∀ i1 j1 k1 non_adjacent,
    ascending 0 0 i1 j1 non_adjacent →
    ascending (i1 + k1) (j1 + k1) la lb blocks →
    ascending 0 0 la lb (collapse i1 j1 k1 non_adjacent blocks).
Proof.
  induction blocks as [|[[i2 j2] k2] rest IH]; intros i1 j1 k1 out Hout Hrest;
    cbn [collapse].
  - cbn in Hrest. destruct (Nat.eqb_spec k1 0).
    + eapply ascending_end; [| |exact Hout]; lia.
    + eapply ascending_app; [exact Hout|]. cbn. lia.
  - cbn in Hrest. destruct Hrest as (Hi & Hj & Hrest).
    destruct ((i1 + k1 =? i2) && (j1 + k1 =? j2)) eqn:E.
    + apply andb_true_iff in E as [<-%Nat.eqb_eq <-%Nat.eqb_eq].
      apply IH; [done|]. by rewrite !Nat.add_assoc.
    + apply IH; [|done]. destruct (Nat.eqb_spec k1 0).
      * eapply ascending_end; [| |exact Hout]; lia.
      * eapply ascending_app; [exact Hout|]. cbn. lia.
Qed.

Lemma contiguous_app i j i' j' la lb ops1 ops2 :
  contiguous i j i' j' ops1 → contiguous i' j' la lb ops2 →
  contiguous i j la lb (ops1 ++ ops2).
Proof.
  revert i j. induction ops1 as [|[[[[t i1] i2] j1] j2] rest IH]; intros i j; cbn.
  - by intros [-> ->].
  - intros (? & ? & ? & ? & ?) ?. split_and!; auto.
Qed.

Lemma opcodes_from_contiguous la lb blocks :
  ∀ i j, ascending i j la lb blocks →
    contiguous i j la lb (opcodes_from i j (blocks ++ [(la, lb, 0)])).
Proof.
  induction blocks as [|[[ai bj] size] rest IH]; intros i j; cbn [ascending app opcodes_from].
  - intros [Hi Hj]. rewrite app_nil_r. cbn [Nat.eqb].
    destruct (Nat.ltb_spec i la), (Nat.ltb_spec j lb); cbn; lia.
  - intros (Hi & Hj & Hrest). specialize (IH _ _ Hrest).
    eapply contiguous_app; [|exact IH].
    destruct (Nat.ltb_spec i ai), (Nat.ltb_spec j bj), (Nat.eqb_spec size 0); cbn; lia.
Qed.

Lemma contiguous_le i j la lb ops : contiguous i j la lb ops → i ≤ la ∧ j ≤ lb.
Proof.
  revert i j. induction ops as [|[[[[t i1] i2] j1] j2] rest IH]; intros i j; cbn.
  - lia.
  - intros (? & ? & ? & ? & H). apply IH in H. lia.
Qed.

Lemma contiguous_covers_a i j la lb ops k :
  contiguous i j la lb ops →
  length (List.filter (covers_a k) ops) = if (i <=? k) && (k <? la) then 1 else 0.
Proof.
  revert i j. induction ops as [|[[[[t i1] i2] j1] j2] rest IH]; intros i j;
    cbn [contiguous List.filter covers_a].
  - intros [-> _]. destruct (Nat.leb_spec la k), (Nat.ltb_spec k la); cbn; lia.
  - intros (-> & -> & ? & ? & H). pose proof (contiguous_le _ _ _ _ _ H).
    apply IH in H.
    destruct (Nat.leb_spec i k), (Nat.ltb_spec k i2), (Nat.leb_spec i2 k),
      (Nat.ltb_spec k la); cbn in *; lia.
Qed.

Lemma contiguous_covers_b i j la lb ops k :
  contiguous i j la lb ops →
  length (List.filter (covers_b k) ops) = if (j <=? k) && (k <? lb) then 1 else 0.
Proof.
  revert i j. induction ops as [|[[[[t i1] i2] j1] j2] rest IH]; intros i j;
    cbn [contiguous List.filter covers_b].
  - intros [_ ->]. destruct (Nat.leb_spec lb k), (Nat.ltb_spec k lb); cbn; lia.
  - intros (-> & -> & ? & ? & H). pose proof (contiguous_le _ _ _ _ _ H).
    apply IH in H.
    destruct (Nat.leb_spec j k), (Nat.ltb_spec k j2), (Nat.leb_spec j2 k),
      (Nat.ltb_spec k lb); cbn in *; lia.
Qed.

End blocks_facts.

Section opcodes_facts.
Context (sm : SequenceMatcher).
Let la := length (a sm).
Let lb := length (b sm).

Lemma get_matching_blocks_ascending :
  ∃ blocks, get_matching_blocks sm = Some (blocks ++ [(la, lb, 0)])
    ∧ ascending 0 0 la lb blocks.
Proof.
  unfold get_matching_blocks. fold la lb.
  destruct (match_ranges_ok sm la lb (enough_steps la) [(0, la, 0, lb)] [])
    as (res & -> & _ & Hres & Hp).
  { split_and!; [|done|repeat constructor].
    apply Forall_cons. split; [cbn; lia|done]. }
  { unfold weight, enough_steps. cbn. lia. }
  cbn [mbind option_bind]. eexists. split; [reflexivity|].
  cbn [app] in Hp.
  apply collapse_ascending; [cbn; lia|]. cbn [Nat.add].
  pose proof (merge_sort_Permutation Match_le res) as Hperm.
  apply (sorted_ascending la lb).
  - apply (StronglySorted_merge_sort _).
  - eapply (ForallOrdPairs_Permutation apart); [|exact Hp].
    symmetry. by apply Permutation_map.
  - by rewrite Hperm.
  - lia.
  - lia.
  - apply Forall_forall. intros [[??]?] _. cbn. lia.
Qed.

Lemma get_opcodes_contiguous :
  ∃ ops, get_opcodes sm = Some ops ∧ contiguous 0 0 la lb ops.
Proof.
  destruct get_matching_blocks_ascending as (blocks & E & Hasc).
  unfold get_opcodes. rewrite E. cbn [mbind option_bind].
  eexists. split; [reflexivity|]. by apply opcodes_from_contiguous.
Qed.

End opcodes_facts.

Section b2j_facts.
Implicit Types (b : list str) (m : gmap (list Z) (list nat)) (x : str).

Lemma indices_from_elem x k b j :
  j ∈ indices_from x k b ↔ k ≤ j ∧ b !! (j - k) = Some x.
Proof.
  revert k. induction b as [|y b IH]; intros k; cbn [indices_from].
  - rewrite elem_of_nil, lookup_nil. by intuition.
  - assert (∀ j, S k ≤ j → (y :: b) !! (j - k) = b !! (j - S k)) as Hshift.
    { intros j' Hj. replace (j' - k) with (S (j' - S k)) by lia. done. }
    case_decide as Hxy.
    + rewrite elem_of_cons, IH. split.
      * intros [->|[Hj Hl]]; [rewrite Nat.sub_diag; by subst|].
        rewrite Hshift by lia. split; [lia|done].
      * intros [Hj Hl]. destruct (decide (j = k)) as [|Hne]; [by left|right].
        rewrite <- Hshift by lia. split; [lia|done].
    + rewrite IH. split.
      * intros [Hj Hl]. rewrite Hshift by lia. split; [lia|done].
      * intros [Hj Hl]. destruct (decide (j = k)) as [->|Hne].
        { rewrite Nat.sub_diag in Hl. cbn in Hl. congruence. }
        rewrite <- Hshift by lia. split; [lia|done].
Qed.

Lemma indices_from_sorted x k b : StronglySorted lt (indices_from x k b).
Proof.
  revert k. induction b as [|y b IH]; intros k; cbn [indices_from]; [constructor|].
  case_decide; [|done]. constructor; [done|].
  apply Forall_forall. intros j Hj%indices_from_elem. lia.
Qed.

Lemma index_step_lookup x k b m :
  fold_left
    (λ (m : gmap (list Z) (list nat)) '(i, elt),
       <[elt := default [] (m !! elt) ++ [i]]> m)
    (zip (seq k (length b)) b) m !! x
  = match indices_from x k b with
    | [] => m !! x
    | js => Some (default [] (m !! x) ++ js)
    end.
Proof.
  revert k m. induction b as [|y b IH]; intros k m; [done|].
  cbn [length seq zip zip_with fold_left indices_from]. rewrite IH.
  case_decide as Hxy.
  - subst y. rewrite lookup_insert_eq. cbn [default].
    destruct (indices_from x (S k) b); unfold id; by rewrite <- ?app_assoc.
  - by rewrite lookup_insert_ne.
Qed.

Lemma index_elements_lookup b x js :
  index_elements b !! x = Some js → js = indices_from x 0 b.
Proof.
  unfold index_elements. rewrite index_step_lookup, lookup_empty.
  destruct (indices_from x 0 b); cbn; congruence.
Qed.

Lemma purge_subseteq popular m : purge popular m ⊆ m.
Proof.
  unfold purge. apply (set_fold_ind_L (λ r _, r ⊆ m)); [done|].
  intros y X r _ Hr. etrans; [apply delete_subseteq|done].
Qed.

Lemma b2j_lookup a b x js :
  b2j (new a b) !! x = Some js → js = indices_from x 0 b.
Proof.
  cbn [new b2j]. intros H. apply index_elements_lookup.
  eapply lookup_weaken; [exact H|apply purge_subseteq].
Qed.

End b2j_facts.

Section same_sequences.
Context (s : list str).
Let sm := new s s.
Let n := length s.

Lemma diag_run_nil i : places sm i = [] → diag_run sm i = 0.
Proof. intros H. destruct i; cbn [diag_run]; by rewrite H. Qed.

Lemma diag_run_cons i : places sm i ≠ [] → diag_run sm i = diag_prev sm i + 1.
Proof.
  intros H. destruct i; cbn [diag_run diag_prev]; by destruct (places sm _).
Qed.

Lemma places_same i :
  places sm i = []
  ∨ (StronglySorted lt (places sm i) ∧ i ∈ places sm i
     ∧ ∀ j, j ∈ places sm i → j < n ∧ places sm j = places sm i).
Proof.
  unfold places. change (a sm) with s.
  destruct (s !! i) as [x|] eqn:Ei; [|by left].
  destruct (b2j sm !! x) as [js|] eqn:Ex; [|by left].
  right. cbn [default from_option]. unfold id.
  pose proof (b2j_lookup s s x js Ex) as ->.
  split_and!.
  - apply indices_from_sorted.
  - apply indices_from_elem. rewrite Nat.sub_0_r. split; [lia|done].
  - intros j [_ Hj]%indices_from_elem. rewrite Nat.sub_0_r in Hj.
    split; [by eapply lookup_lt_Some|]. by rewrite Hj, Ex.
Qed.

Lemma j2lenget_diag i j j2len :
  (∀ j v, j2len !! j = Some v → v ≤ diag_prev sm i ∧ v ≤ diag_run sm j) →
  j2lenget j2len j ≤ diag_prev sm i ∧ j2lenget j2len j ≤ diag_prev sm j.
Proof.
  intros H. destruct j as [|j']; cbn [j2lenget diag_prev]; [lia|].
  destruct (j2len !! j') as [v|] eqn:E; cbn; [by apply H|lia].
Qed.

Lemma scan_row_same i j2len js :
  j2lenget j2len i = diag_prev sm i →
  (∀ j v, j2len !! j = Some v → v ≤ diag_prev sm i ∧ v ≤ diag_run sm j) →
  StronglySorted lt js →
  (∀ j, j ∈ js → j < n ∧ places sm j ≠ [] ∧ places sm i ≠ []) →
  ∀ newj2len p sz,
    (∀ j v, newj2len !! j = Some v → v ≤ diag_run sm i ∧ v ≤ diag_run sm j) →
    i ∈ js ∨ (default 0 (newj2len !! i) = diag_run sm i ∧ diag_run sm i ≤ sz) →
    (∀ i', i' < i → diag_run sm i' ≤ sz) →
    ∃ new' p' sz',
      scan_row j2len i 0 n js newj2len (p, p, sz) = (new', (p', p', sz'))
      ∧ (∀ j v, new' !! j = Some v → v ≤ diag_run sm i ∧ v ≤ diag_run sm j)
      ∧ default 0 (new' !! i) = diag_run sm i
      ∧ (∀ i', i' < S i → diag_run sm i' ≤ sz').
Proof.
  intros R1 R2. induction 1 as [|j js Hs IH Hlt]; intros J2 newj2len p sz N1 N2 B2.
  - destruct N2 as [Hin|[Hd Hle]]; [by apply elem_of_nil in Hin|].
    exists newj2len, p, sz. split_and!; [done..|].
    intros i' Hi'. destruct (decide (i' = i)) as [->|]; [done|]. apply B2. lia.
  - cbn [scan_row]. destruct (J2 j) as (Hjn & Hpj & Hpi); [by left|].
    replace (j <? 0) with false by done.
    destruct (Nat.leb_spec n j) as [|_]; [lia|].
    pose proof (diag_run_cons _ Hpj) as Hrj. pose proof (diag_run_cons _ Hpi) as Hri.
    destruct (j2lenget_diag i j j2len R2) as [Hki Hkj].
    set (k := j2lenget j2len j + 1) in *.
    assert (∀ j' v, <[j:=k]> newj2len !! j' = Some v →
              v ≤ diag_run sm i ∧ v ≤ diag_run sm j') as N1'.
    { intros j' v. rewrite lookup_insert. case_decide; [|by apply N1].
      intros [= <-]. subst j'. lia. }
    assert (∀ j', j' ∈ js → j' < n ∧ places sm j' ≠ [] ∧ places sm i ≠ []) as J2'.
    { intros j' Hj'. apply J2. by right. }
    assert (j = i → k = diag_run sm i) as Hdiag.
    { intros ->. unfold k. rewrite R1. lia. }
    assert (i < j → diag_run sm i ≤ sz) as Hpast.
    { intros Hij. destruct N2 as [Hin|[_ ?]]; [|done].
      apply elem_of_cons in Hin as [->|Hin]; [lia|].
      rewrite Forall_forall in Hlt. apply Hlt in Hin. lia. }
    cbn [snd]. destruct (Nat.ltb_spec sz k) as [Hup|Hkeep].
    + assert (j = i) as ->.
      { destruct (Nat.lt_trichotomy j i) as [Hji|[?|Hij]]; [|done|].
        - specialize (B2 _ Hji). lia.
        - specialize (Hpast Hij). lia. }
      apply IH; [done|done| |].
      * right. rewrite lookup_insert_eq. cbn. rewrite Hdiag by done. lia.
      * intros i' Hi'. specialize (B2 _ Hi'). lia.
    + apply IH; [done|done| |done].
      destruct (decide (j = i)) as [->|Hne].
      * right. rewrite lookup_insert_eq. cbn. rewrite <- Hdiag by done. lia.
      * destruct N2 as [Hin|[Hd Hle]].
        -- left. apply elem_of_cons in Hin as [->|Hin]; [done|done].
        -- right. by rewrite lookup_insert_ne.
Qed.

Lemma scan_rows_same_from cnt :
  ∀ i j2len p sz,
    i + cnt = n →
    j2lenget j2len i = diag_prev sm i →
    (∀ j v, j2len !! j = Some v → v ≤ diag_prev sm i ∧ v ≤ diag_run sm j) →
    (∀ i', i' < i → diag_run sm i' ≤ sz) →
    ∃ p' sz',
      (fold_left (λ '(j2len, best) i, scan_row j2len i 0 n (places sm i) ∅ best)
         (seq i cnt) (j2len, (p, p, sz))).2 = (p', p', sz').
Proof.
  induction cnt as [|cnt IH]; intros i j2len p sz Hn R1 R2 B2; cbn [seq fold_left].
  { by exists p, sz. }
  destruct (scan_row_same i j2len (places sm i) R1 R2) with (newj2len := (∅ : gmap nat nat))
    (p := p) (sz := sz) as (new' & p' & sz' & -> & N1 & Hd & B2').
  - destruct (places_same i) as [->|(? & _)]; [constructor|done].
  - intros j Hj. destruct (places_same i) as [E|(_ & _ & Hall)].
    { rewrite E in Hj. by apply elem_of_nil in Hj. }
    destruct (Hall j Hj) as [? Epl]. split_and!; [done| |].
    + rewrite Epl. intros E. rewrite E in Hj. by apply elem_of_nil in Hj.
    + intros E. rewrite E in Hj. by apply elem_of_nil in Hj.
  - intros j v. by rewrite lookup_empty.
  - destruct (places_same i) as [E|(_ & ? & _)]; [|by left].
    right. rewrite lookup_empty, (diag_run_nil _ E). cbn. lia.
  - done.
  - apply IH; [lia|done| |done].
    intros j v Hv. by apply N1.
Qed.

Lemma scan_rows_same : ∃ p sz, (scan_rows sm 0 n 0 n).2 = (p, p, sz) ∧ p + sz ≤ n.
Proof.
  pose proof (scan_rows_in_box sm 0 n 0 n) as Hbox.
  unfold scan_rows in *. rewrite Nat.sub_0_r in *.
  destruct (scan_rows_same_from n 0 ∅ 0 0) as (p & sz & E);
    [done|done|intros j v; by rewrite lookup_empty|lia|].
  rewrite E in *. exists p, sz. split; [done|]. cbn in Hbox. lia.
Qed.

Lemma same_at_diag i : i < n → same_at sm i i = true.
Proof.
  intros Hi. unfold same_at. change (a sm) with s. change (b sm) with s.
  destruct (lookup_lt_is_Some_2 s i Hi) as [x ->]. by apply bool_decide_eq_true.
Qed.

Lemma junk_at_none i : i < n → junk_at sm false i = true.
Proof.
  intros Hi. unfold junk_at. change (b sm) with s.
  by destruct (lookup_lt_is_Some_2 s i Hi) as [x ->].
Qed.

Lemma extend_left_same p : ∀ sz, p ≤ n → extend_left sm false 0 0 p p sz = (0, 0, p + sz).
Proof.
  induction p as [|p IH]; intros sz Hp; [done|].
  cbn [extend_left]. rewrite same_at_diag, junk_at_none by lia.
  cbn [Nat.ltb Nat.leb andb]. rewrite IH by lia. f_equal. lia.
Qed.

Lemma extend_right_steps_same cnt :
  ∀ k, k + cnt = n → extend_right_steps sm false n n cnt 0 0 k = (0, 0, n).
Proof.
  induction cnt as [|cnt IH]; intros k Hk; cbn [extend_right_steps].
  - repeat f_equal. lia.
  - cbn [Nat.add]. rewrite same_at_diag, junk_at_none by lia.
    destruct (Nat.ltb_spec k n); [|lia]. cbn [andb]. apply IH. lia.
Qed.

Lemma find_longest_match_same : find_longest_match sm 0 n 0 n = (0, 0, n).
Proof.
  unfold find_longest_match. destruct scan_rows_same as (p & sz & -> & Hle).
  unfold extend at 2. rewrite extend_left_same by lia. unfold extend_right.
  rewrite extend_right_steps_same by lia.
  unfold extend. cbn [extend_left]. unfold extend_right.
  replace (n - (0 + n)) with 0 by lia. done.
Qed.

Lemma get_opcodes_same :
  get_opcodes sm = Some (if n =? 0 then [] else [(Equal, 0, n, 0, n)]).
Proof.
  unfold get_opcodes, get_matching_blocks. change (length (a sm)) with n.
  change (length (b sm)) with n. unfold enough_steps.
  replace (2 * n + 1) with (S (2 * n)) by lia. cbn [match_ranges].
  rewrite find_longest_match_same. generalize n. intros m.
  destruct m as [|m]; [done|].
  cbn [Nat.eqb Nat.add]. rewrite !Nat.ltb_irrefl. cbn [andb app].
  destruct (2 * S m); cbn [match_ranges mbind option_bind];
    cbn [merge_sort merge_sort_aux merge_list_to_stack merge_stack list_merge
         collapse Nat.add Nat.eqb andb app opcodes_from];
    rewrite ?Nat.ltb_irrefl; reflexivity.
Qed.

End same_sequences.

End difflib_facts.

(** ** [diff_strings] *)

Section diff_strings_facts.
Implicit Types (s t : str) (fg : color_arg) (bg : color_arg * color_arg).

Lemma split_nl_nonempty s : split_nl s ≠ [].
Proof.
  destruct s as [|c s]; cbn [split_nl]; [done|].
  destruct (c =? NL)%Z; [done|]. by destruct (split_nl s).
Qed.

Lemma join_cons sep x y rest :
  join sep (x :: y :: rest) = x ++ sep ++ join sep (y :: rest).
Proof. done. Qed.

(** Splitting on newlines and joining with newlines gives the text back. *)
Lemma join_split_nl s : join [NL] (split_nl s) = s.
Proof.
  induction s as [|c s IH]; [done|]. cbn [split_nl].
  pose proof (split_nl_nonempty s) as Hne.
  destruct (Z.eqb_spec c NL) as [->|_].
  - destruct (split_nl s) as [|l ls] eqn:E; [done|].
    rewrite join_cons, IH. done.
  - destruct (split_nl s) as [|l ls] eqn:E; [done|].
    destruct ls as [|l' ls]; [cbn in *; by subst|].
    rewrite join_cons in *. by rewrite <- IH.
Qed.

Lemma slice_all {A} (l : list A) : slice l 0 (length l) = l.
Proof. unfold slice. by rewrite Nat.sub_0_r, drop_0, firstn_all. Qed.

(** C1. Diffing a text against itself gives the text back, for any
    styling arguments and so for the default ones: the only opcode is
    [equal] over all the lines, its lines are emitted as they are, and
    joining them with newlines rebuilds the text. *)
Theorem diff_strings_same s fg bg add_symbols :
  let lines := split_nl s in
  let whole := (difflib.Equal, 0, length lines, 0, length lines) in
  difflib.get_opcodes (difflib.new lines lines) = Some [whole]
  ∧ render_opcode lines lines fg bg add_symbols whole = lines
  ∧ join [NL] lines = s
  ∧ diff_strings s s fg bg add_symbols = Some s
  ∧ diff_strings s s default_fg default_bg false = Some s.
Proof.
  intros lines whole.
  assert (difflib.get_opcodes (difflib.new lines lines) = Some [whole]) as Hops.
  { rewrite difflib_facts.get_opcodes_same.
    destruct (Nat.eqb_spec (length lines) 0) as [E|_]; [|done].
    apply nil_length_inv in E. by apply split_nl_nonempty in E. }
  assert (∀ fg bg add_symbols,
            render_opcode lines lines fg bg add_symbols whole = lines) as Hrender.
  { intros. unfold render_opcode, whole. by rewrite slice_all, !app_nil_r. }
  assert (∀ fg bg add_symbols, diff_strings s s fg bg add_symbols = Some s) as Hdiff.
  { intros. unfold diff_strings. fold lines. rewrite Hops.
    cbn [mbind option_bind map concat]. rewrite Hrender, app_nil_r.
    unfold lines. by rewrite join_split_nl. }
  split_and!; [done|apply Hrender|apply join_split_nl|apply Hdiff..].
Qed.

(** C2. A [replace] opcode is rendered as an insertion followed by a
    deletion: first the lines of its range in [b], coloured with [fg] on
    the insert background and prefixed with ["+ "] under [add_symbols],
    then the lines of its range in [a], coloured with [fg] on the delete
    background and prefixed with ["- "].  The output of [diff_strings] is
    the rendering of the opcodes in order, joined with newlines; for
    ["x\ny"] against ["x\nz"] with symbols it is ["x"], the coloured
    ["+ z"], then the coloured ["- y"]. *)
Theorem diff_strings_replace :
  (∀ (a b : list str) fg bg add_symbols a0 a1 b0 b1,
     render_opcode a b fg bg add_symbols (difflib.Replace, a0, a1, b0, b1)
     = map (λ item, color ((if add_symbols then lit "+ " else []) ++ item)
                      fg bg.1 false false) (slice b b0 b1)
       ++ map (λ item, color ((if add_symbols then lit "- " else []) ++ item)
                         fg bg.2 false false) (slice a a0 a1))
  ∧ (∀ s t fg bg add_symbols,
       diff_strings s t fg bg add_symbols
       = opcodes ← difflib.get_opcodes (difflib.new (split_nl s) (split_nl t));
         Some (join [NL]
                 (concat (map (render_opcode (split_nl s) (split_nl t) fg bg add_symbols)
                            opcodes))))
  ∧ difflib.get_opcodes
      (difflib.new (split_nl (lit "x" ++ [NL] ++ lit "y"))
                   (split_nl (lit "x" ++ [NL] ++ lit "z")))
    = Some [(difflib.Equal, 0, 1, 0, 1); (difflib.Replace, 1, 2, 1, 2)]
  ∧ diff_strings (lit "x" ++ [NL] ++ lit "y") (lit "x" ++ [NL] ++ lit "z")
      default_fg default_bg true
    = Some (lit "x" ++ [NL]
            ++ color (lit "+ z") (Name (lit "black")) (Name (lit "green")) false false
            ++ [NL]
            ++ color (lit "- y") (Name (lit "black")) (Name (lit "red")) false false)
  ∧ color (lit "+ z") (Name (lit "black")) (Name (lit "green")) false false
    = ESC :: lit "[38;5;16;48;5;2m+ z" ++ ESC :: lit "[0m"
  ∧ color (lit "- y") (Name (lit "black")) (Name (lit "red")) false false
    = ESC :: lit "[38;5;16;48;5;1m- y" ++ ESC :: lit "[0m".
Proof.
  split_and!.
  - intros. unfold render_opcode. cbn [app]. f_equal.
    + apply map_ext. intros item. by destruct add_symbols.
    + apply map_ext. intros item. by destruct add_symbols.
  - done.
  - vm_compute. reflexivity.
  - vm_compute. reflexivity.
  - vm_compute. reflexivity.
  - vm_compute. reflexivity.
Qed.

(** C3. The opcodes computed for the lines of two texts tile both line
    sequences: the first opcode starts at 0 on both sides, each opcode
    starts where the previous one ends, the last one ends at the two
    lengths, and so every line of either text lies in the range of
    exactly one opcode. *)
Theorem opcodes_partition s t :
  let a := split_nl s in
  let b := split_nl t in
  ∃ ops,
    difflib.get_opcodes (difflib.new a b) = Some ops
    ∧ difflib.contiguous 0 0 (length a) (length b) ops
    ∧ Forall (λ k, length (List.filter (difflib.covers_a k) ops) = 1)
        (seq 0 (length a))
    ∧ Forall (λ k, length (List.filter (difflib.covers_b k) ops) = 1)
        (seq 0 (length b)).
Proof.
  intros a b.
  destruct (difflib_facts.get_opcodes_contiguous (difflib.new a b)) as (ops & E & Hc).
  change (length (difflib.a (difflib.new a b))) with (length a) in Hc.
  change (length (difflib.b (difflib.new a b))) with (length b) in Hc.
  exists ops. split_and!; [done|done|..].
  - apply Forall_forall. intros k Hk%elem_of_seq.
    rewrite (difflib_facts.contiguous_covers_a _ _ _ _ _ _ Hc).
    destruct (Nat.ltb_spec k (length a)); [done|lia].
  - apply Forall_forall. intros k Hk%elem_of_seq.
    rewrite (difflib_facts.contiguous_covers_b _ _ _ _ _ _ Hc).
    destruct (Nat.ltb_spec k (length b)); [done|lia].
Qed.

End diff_strings_facts.

(** ** Codecs, [locale_escape] and [can_render] *)

Section codec_facts.
Implicit Types (enc : encoding) (err : errors) (s t : str) (c : Z).
Local Open Scope Z_scope.

Local Ltac cases_ltb :=
  repeat match goal with
    | |- context [(?x <? ?y)] => destruct (Z.ltb_spec x y); try lia
    | |- context [(?x <=? ?y)] => destruct (Z.leb_spec x y); try lia
    end.

Lemma encode_raises enc err s e :
  encode enc err s = Raise e → e = UnicodeEncodeError.
Proof.
  induction s as [|c s IH]; cbn [encode]; [done|].
  destruct (encode_char enc c) as [bs|].
  - destruct (encode enc err s); cbn; [done|]. intros [= <-]. by apply IH.
  - destruct err; [by intros [= <-]| |done].
    destruct (encode enc ErrReplace s); cbn; [done|]. intros [= <-]. by apply IH.
Qed.

Lemma utf8_char_roundtrip enc c bs rest :
  utf8_compatible enc = true → is_code_point c →
  encode_char enc c = Some bs →
  decode_utf8 (bs ++ rest) = bind (decode_utf8 rest) (λ s, Ok (c :: s)).
Proof.
  unfold is_code_point, encode_char, is_surrogate.
  intros Henc Hc. destruct enc; [| |done].
  - destruct (Z.ltb_spec c 0x80); [|done]. intros [= <-]. cbn [app decode_utf8].
    by destruct (Z.ltb_spec c 0x80); [|lia].
  - destruct (Z.ltb_spec c 0x80).
    { intros [= <-]. cbn [app decode_utf8]. by destruct (Z.ltb_spec c 0x80); [|lia]. }
    destruct (Z.ltb_spec c 0x800).
    { intros [= <-]. cbn [app decode_utf8]. unfold is_cont.
      pose proof (Z.div_mod c 64). pose proof (Z.mod_pos_bound c 64).
      assert (2 ≤ c / 64 < 32) by (split; [apply Z.div_le_lower_bound|apply Z.div_lt_upper_bound]; lia).
      cases_ltb. cbn [andb]. replace (_ + _) with c by lia. done. }
    destruct (Z.leb_spec 0xD800 c), (Z.leb_spec c 0xDFFF); cbn [andb]; try done.
    all: destruct (Z.ltb_spec c 0x10000).
    all: intros [= <-]; cbn [app decode_utf8]; unfold is_cont, is_surrogate.
    all: pose proof (Z.div_mod c 64); pose proof (Z.mod_pos_bound c 64);
      pose proof (Z.div_mod (c / 64) 64); pose proof (Z.mod_pos_bound (c / 64) 64);
      pose proof (Z.div_div c 64 64); pose proof (Z.div_div c 4096 64);
      pose proof (Z.div_mod (c / 4096) 64); pose proof (Z.mod_pos_bound (c / 4096) 64).
    all: change (64 * 64) with 4096 in *; change (4096 * 64) with 262144 in *.
    all: try assert (0 ≤ c / 4096 < 16)
        by (split; [apply Z.div_le_lower_bound|apply Z.div_lt_upper_bound]; lia).
    all: try assert (0 ≤ c / 262144 < 5)
        by (split; [apply Z.div_le_lower_bound|apply Z.div_lt_upper_bound]; lia).
    all: set (q1 := c / 64) in *; set (r1 := c mod 64) in *;
      set (r2 := q1 mod 64) in *; set (q2 := c / 4096) in *;
      set (r3 := q2 mod 64) in *; set (q3 := c / 262144) in *.
    all: cases_ltb; cbn [andb orb].
    all: match goal with
         | |- bind _ (λ s, Ok (?x :: s)) = _ => replace x with c by lia; done
         end.
Qed.

Lemma escaped_code_point enc c : is_code_point c → is_code_point (escaped enc c).
Proof.
  unfold escaped. destruct (encode_char enc c); [done|].
  intros _. unfold is_code_point, QUESTION_MARK. lia.
Qed.

Lemma encode_char_question enc : encode_char enc QUESTION_MARK = Some [QUESTION_MARK].
Proof. by destruct enc. Qed.

Lemma escaped_idemp enc c : escaped enc (escaped enc c) = escaped enc c.
Proof.
  unfold escaped at 2 3. destruct (encode_char enc c) eqn:E.
  - unfold escaped. by rewrite E.
  - unfold escaped. by rewrite encode_char_question.
Qed.

(** Under ASCII and UTF-8, [locale_escape] with ["replace"] swaps each
    character the codec cannot encode for a question mark. *)
Lemma locale_escape_replace enc s :
  utf8_compatible enc = true → Forall is_code_point s →
  locale_escape enc s ErrReplace = Ok (map (escaped enc) s).
Proof.
  intros Henc. unfold locale_escape, to_string.
  induction 1 as [|c s Hc Hs IH]; [done|].
  cbn [encode map]. unfold escaped at 1.
  destruct (encode enc ErrReplace s) as [rest|e] eqn:E; cbn [bind] in *; [|done].
  destruct (encode_char enc c) as [bs|] eqn:Ec; cbn [bind].
  - rewrite (utf8_char_roundtrip enc c bs rest Henc Hc Ec), IH. done.
  - change (decode_utf8 (QUESTION_MARK :: rest))
      with (bind (decode_utf8 rest) (λ s, Ok (QUESTION_MARK :: s))).
    by rewrite IH.
Qed.

(** C7 (as stated). Under Latin-1 the claim fails: ["Ã©"] is escaped to
    ["é"], whose Latin-1 byte [0xE9] is not UTF-8, so escaping a second
    time raises [UnicodeDecodeError]. *)
Lemma locale_escape_latin_1_not_idempotent :
  locale_escape (ENCODING (Some LATIN_1)) [0xC3; 0xA9] ErrReplace = Ok [0xE9]
  ∧ locale_escape (ENCODING (Some LATIN_1)) [0xE9] ErrReplace = Raise UnicodeDecodeError
  ∧ bind (locale_escape (ENCODING (Some LATIN_1)) [0xC3; 0xA9] ErrReplace)
         (λ u, locale_escape (ENCODING (Some LATIN_1)) u ErrReplace)
    ≠ locale_escape (ENCODING (Some LATIN_1)) [0xC3; 0xA9] ErrReplace.
Proof. split_and!; [done|done|]. vm_compute. discriminate. Qed.

(** C7 (amended). When the detected output encoding is ASCII or UTF-8,
    [locale_escape] with the ["replace"] policy returns a string, namely
    the text with a question mark for each character the codec cannot
    encode, and escaping that string again returns it unchanged. *)
Theorem locale_escape_idempotent STDOUT_ENCODING t :
  utf8_compatible (ENCODING STDOUT_ENCODING) = true →
  Forall is_code_point t →
  let enc := ENCODING STDOUT_ENCODING in
  ∃ u,
    u = map (escaped enc) t
    ∧ locale_escape enc t ErrReplace = Ok u
    ∧ locale_escape enc u ErrReplace = Ok u
    ∧ bind (locale_escape enc t ErrReplace) (λ u, locale_escape enc u ErrReplace)
      = locale_escape enc t ErrReplace.
Proof.
  intros Henc Ht enc. exists (map (escaped enc) t).
  assert (locale_escape enc (map (escaped enc) t) ErrReplace = Ok (map (escaped enc) t))
    as Hagain.
  { rewrite locale_escape_replace; [|done|].
    - rewrite map_map. f_equal. apply map_ext. intros c. apply escaped_idemp.
    - apply Forall_map. eapply Forall_impl; [exact Ht|].
      intros c. apply escaped_code_point. }
  split_and!; [done|by apply locale_escape_replace|done|].
  rewrite locale_escape_replace by done. exact Hagain.
Qed.

Lemma locale_escape_idempotent_witness :
  utf8_compatible (ENCODING (Some UTF_8)) = true
  ∧ Forall is_code_point [0xE9; 0xD800; 0x20AC]
  ∧ ∃ u,
      u = map (escaped UTF_8) [0xE9; 0xD800; 0x20AC]
      ∧ locale_escape UTF_8 [0xE9; 0xD800; 0x20AC] ErrReplace = Ok u
      ∧ locale_escape UTF_8 u ErrReplace = Ok u
      ∧ bind (locale_escape UTF_8 [0xE9; 0xD800; 0x20AC] ErrReplace)
             (λ u, locale_escape UTF_8 u ErrReplace)
        = locale_escape UTF_8 [0xE9; 0xD800; 0x20AC] ErrReplace.
Proof.
  assert (Forall is_code_point [0xE9; 0xD800; 0x20AC]) as Ht.
  { repeat (apply Forall_cons_2; [unfold is_code_point; lia|]). apply List.Forall_nil. }
  split; [reflexivity|]. split; [exact Ht|].
  apply (locale_escape_idempotent (Some UTF_8) [0xE9; 0xD800; 0x20AC]);
    [reflexivity | exact Ht].
Defined.

(** C8. [can_render] always returns a boolean: [True] exactly when the
    strict encoding into the detected output encoding succeeds, [False]
    exactly when it raises [UnicodeEncodeError], the only exception the
    encoding raises. *)
Theorem can_render_never_raises STDOUT_ENCODING s :
  let enc := ENCODING STDOUT_ENCODING in
  ∃ b : bool,
    can_render enc s = Ok b
    ∧ (b = true ↔ ∃ bs, encode enc ErrStrict s = Ok bs)
    ∧ (b = false ↔ encode enc ErrStrict s = Raise UnicodeEncodeError).
Proof.
  intros enc. unfold can_render.
  destruct (encode enc ErrStrict s) as [bs|e] eqn:E.
  - exists true. split_and!; [done| |done]. split; [eauto|done].
  - apply encode_raises in E as ->. exists false. split_and!; [done| |done].
    split; [done|]. by intros [bs ?].
Qed.

End codec_facts.

(** ** [supports_ansi] *)

Section supports_ansi_facts.
Implicit Types (environ : gmap (list Z) (list Z)) (platform : str) (w : world).

(** C9. With [ANSI_COLORS_DISABLED] set to a non-empty value,
    [supports_ansi] returns [False] on every platform; with the variable
    not set (or set to the empty string), it returns [True] on every
    platform other than ["win32"].  In both cases neither [ANSICON] nor
    the console is looked at: the result is the same whatever else the
    environment holds and whatever the console is, and the console is
    left as it was. *)
Theorem supports_ansi_env environ platform w :
  (getenv_truthy environ ENV_ANSI_DISABLED = true →
   supports_ansi environ platform w = (Ok false, w))
  ∧ (environ !! ENV_ANSI_DISABLED = None → platform ≠ lit "win32" →
     supports_ansi environ platform w = (Ok true, w))
  ∧ (getenv_truthy environ ENV_ANSI_DISABLED = false → platform ≠ lit "win32" →
     supports_ansi environ platform w = (Ok true, w)).
Proof.
  unfold supports_ansi. split_and!.
  - by intros ->.
  - intros Hunset Hplat. unfold getenv_truthy. rewrite Hunset.
    by rewrite bool_decide_eq_false_2.
  - intros -> Hplat. by rewrite bool_decide_eq_false_2.
Qed.

Lemma supports_ansi_env_witness :
  let console := {| mode := Some 3%Z; accepts := λ flags, Some flags |} in
  let disabled : gmap (list Z) (list Z) := {[ ENV_ANSI_DISABLED := lit "1" ]} in
  let emptied : gmap (list Z) (list Z) := {[ ENV_ANSI_DISABLED := [] ]} in
  (getenv_truthy disabled ENV_ANSI_DISABLED = true
   ∧ supports_ansi disabled (lit "win32") (Some console) = (Ok false, Some console))
  ∧ ((∅ : gmap (list Z) (list Z)) !! ENV_ANSI_DISABLED = None
     ∧ lit "linux" ≠ lit "win32"
     ∧ supports_ansi ∅ (lit "linux") (Some console) = (Ok true, Some console))
  ∧ (getenv_truthy emptied ENV_ANSI_DISABLED = false
     ∧ supports_ansi emptied (lit "linux") None = (Ok true, None)).
Proof.
  intros console disabled emptied.
  assert (getenv_truthy disabled ENV_ANSI_DISABLED = true) as H1 by (vm_compute; reflexivity).
  assert ((∅ : gmap (list Z) (list Z)) !! ENV_ANSI_DISABLED = None) as H2 by reflexivity.
  assert (lit "linux" ≠ lit "win32") as H3 by (vm_compute; discriminate).
  assert (getenv_truthy emptied ENV_ANSI_DISABLED = false) as H4 by (vm_compute; reflexivity).
  split_and!.
  - exact H1.
  - exact (proj1 (supports_ansi_env disabled (lit "win32") (Some console)) H1).
  - exact H2.
  - exact H3.
  - exact (proj1 (proj2 (supports_ansi_env ∅ (lit "linux") (Some console))) H2 H3).
  - exact H4.
  - exact (proj2 (proj2 (supports_ansi_env emptied (lit "linux") None)) H4 H3).
Defined.

End supports_ansi_facts.

(** ** [textwrap] and [wrap] *)

Module textwrap_facts.
Import textwrap.

Section wrap_loop_facts.
Context (w : TextWrapper).
Implicit Types (chunks cur_line lines : list str).

(** [fill_line] either takes a chunk or stops at a first chunk that does
    not fit. *)
Lemma fill_line_takes width chunks cur_line cur_len :
  length (fill_line width chunks cur_line cur_len).2 < length chunks
  ∨ (fill_line width chunks cur_line cur_len = (cur_line, chunks)
     ∧ match chunks with
       | chunk :: _ => (width < cur_len + len chunk)%Z
       | [] => True
       end).
Proof.
  destruct chunks as [|chunk rest]; cbn [fill_line]; [by right|].
  destruct (Z.leb_spec (cur_len + len chunk) width) as [Hfit|Hfull]; [left|by right].
  clear Hfit. generalize (cur_line ++ [chunk]) (cur_len + len chunk)%Z.
  induction rest as [|c rest IH]; intros line n; cbn [fill_line length snd]; [lia|].
  destruct (_ <=? _)%Z; [|cbn [snd length]; lia].
  specialize (IH (line ++ [c]) (n + len c)%Z). cbn [length] in IH. lia.
Qed.

Lemma _handle_long_word_length chunks cur_line :
  length (_handle_long_word chunks cur_line).2 ≤ length chunks.
Proof. destruct cur_line, chunks; cbn; lia. Qed.

(** Each iteration of [while chunks] takes at least one chunk. *)
Lemma next_line_shrinks lines chunks :
  chunks ≠ [] → length (next_line w lines chunks).2 < length chunks.
Proof.
  intros Hne. unfold next_line.
  set (indent := match lines with [] => _ | _ => _ end).
  set (width' := (width w - len indent)%Z).
  set (chunks1 := match chunks, lines with
                  | chunk :: rest, _ :: _ => if blank chunk then rest else chunks
                  | _, _ => chunks
                  end).
  assert (length chunks1 < length chunks ∨ chunks1 = chunks) as Hdrop.
  { unfold chunks1. destruct chunks as [|c rest]; [done|].
    destruct lines; [by right|]. destruct (blank c); [left; cbn; lia|by right]. }
  destruct (fill_line_takes width' chunks1 [] 0) as [Hlt|[E Hfull]].
  - destruct (fill_line width' chunks1 [] 0) as [cur_line chunks2]. cbn [snd] in Hlt.
    assert (length chunks2 < length chunks) as Hlt' by (destruct Hdrop; [lia|congruence]).
    clear Hlt Hdrop.
    destruct chunks2 as [|c rest].
    + destruct (last cur_line) as [l|]; [destruct (blank l)|];
        match goal with |- context [match ?x with [] => _ | _ => _ end] => by destruct x end.
    + pose proof (_handle_long_word_length (c :: rest) cur_line) as Hh.
      destruct (width' <? len c)%Z;
        [destruct (_handle_long_word (c :: rest) cur_line) as [cl ch]; cbn [snd] in Hh|].
      all: match goal with |- context [last ?l] =>
             destruct (last l) as [x|]; [destruct (blank x)|] end.
      all: match goal with |- context [match ?x with [] => _ | _ => _ end] =>
             destruct x end.
      all: cbn [snd length] in *; lia.
  - rewrite E. destruct chunks1 as [|c rest].
    + destruct Hdrop as [Hlt|<-]; [|done]. cbn. lia.
    + assert (length (c :: rest) ≤ length chunks) as Hle by (destruct Hdrop; [lia|by subst]).
      destruct (Z.ltb_spec width' (len c)); [|lia].
      cbn [_handle_long_word last]. destruct (blank c); cbn [snd removelast length] in *; lia.
Qed.

(** [length chunks] iterations place all the chunks. *)
Lemma wrap_loop_places_all n :
  ∀ chunks lines, length chunks ≤ n → (wrap_loop w n chunks lines).2 = [].
Proof.
  induction n as [|n IH]; intros chunks lines Hn.
  - destruct chunks; [done|]. cbn in Hn. lia.
  - destruct chunks as [|c rest]; [done|]. cbn [wrap_loop].
    pose proof (next_line_shrinks lines (c :: rest)) as Hs.
    destruct (next_line w lines (c :: rest)) as [line chunks']. cbn [snd] in Hs.
    apply IH. cbn [length] in *. specialize (Hs ltac:(done)). lia.
Qed.

End wrap_loop_facts.
End textwrap_facts.

Section wrap_facts.

(** C6 (the code at [wrap("a b c d", wrap_max=10, indent=4)]).  [wrap]
    hands [textwrap.fill] the width [wrap_max - indent] together with the
    indentation, and [textwrap] takes the indentation off the width once
    more: two columns are left for the text and every word gets a line of
    its own.  A greedy wrap at the usable width 6 puts ["a b c"] on the
    first line, which with its indentation is 9 columns wide, within the
    10 of [wrap_max]. *)
Theorem wrap_counts_indent_twice :
  wrap (lit "a b c d") 10 4
  = Ok (lit "    a" ++ [NL] ++ lit "    b" ++ [NL] ++ lit "    c" ++ [NL] ++ lit "    d")
  ∧ wrap_spec (lit "a b c d") 10 4 = Ok (lit "    a b c" ++ [NL] ++ lit "    d")
  ∧ wrap (lit "a b c d") 10 4 ≠ wrap_spec (lit "a b c d") 10 4
  ∧ length (lit "a b c") ≤ 6
  ∧ length (lit "    a b c") ≤ 10.
Proof.
  split_and!; [vm_compute; reflexivity..| |cbn; lia|cbn; lia].
  vm_compute. discriminate.
Qed.

End wrap_facts.

(** ** More on the opcodes *)

Module opcodes_facts.
Import difflib difflib_facts.

Section real_matches.
Context (sm : SequenceMatcher).
Hypothesis Hsound : b2j_sound sm.
Implicit Types (m best : Match) (j2len : gmap nat nat).

Lemma row_real_empty i : row_real sm i ∅.
Proof. intros j v. by rewrite lookup_empty. Qed.

Lemma places_same_at i j : j ∈ places sm i → same_at sm i j = true.
Proof using Hsound.
  unfold places, same_at. destruct (a sm !! i) as [x|]; [|by intros ?%elem_of_nil].
  destruct (b2j sm !! x) as [js|] eqn:E; [|by intros ?%elem_of_nil].
  cbn. intros Hj. rewrite (Hsound x js j E Hj). by apply bool_decide_eq_true.
Qed.

Lemma scan_row_real i j2len blo bhi js :
  row_real sm i j2len →
  (∀ j, j ∈ js → same_at sm i j = true) →
  ∀ newj2len best,
    row_real sm (S i) newj2len → real_match sm best →
    row_real sm (S i) (scan_row j2len i blo bhi js newj2len best).1
    ∧ real_match sm (scan_row j2len i blo bhi js newj2len best).2.
Proof.
  intros Hrow. induction js as [|j js IH]; intros Hjs newj2len best Hnew Hbest;
    cbn [scan_row]; [done|].
  assert (∀ j', j' ∈ js → same_at sm i j' = true) as Hjs' by (intros; apply Hjs; by right).
  destruct (j <? blo); [by apply IH|].
  destruct (bhi <=? j); [done|].
  assert (∃ i0 j0, i0 + (j2lenget j2len j + 1) = S i ∧ j0 + (j2lenget j2len j + 1) = S j
            ∧ ∀ t, t < j2lenget j2len j + 1 → same_at sm (i0 + t) (j0 + t) = true)
    as (i0 & j0 & Hi0 & Hj0 & Hrun).
  { assert (same_at sm i j = true) as Hij by (apply Hjs; by left).
    destruct j as [|j']; cbn [j2lenget].
    - exists i, 0. split_and!; [lia..|]. intros t Ht. by replace t with 0 by lia; rewrite Nat.add_0_r.
    - destruct (j2len !! j') as [v|] eqn:E; cbn.
      + destruct (Hrow _ _ E) as (i0 & j0 & ? & ? & Hrun). exists i0, j0.
        split_and!; [lia..|]. intros t Ht. destruct (decide (t = v)) as [->|].
        * by replace (i0 + v) with i by lia; replace (j0 + v) with (S j') by lia.
        * apply Hrun. lia.
      + exists i, (S j'). split_and!; [lia..|]. intros t Ht.
        by replace t with 0 by lia; rewrite !Nat.add_0_r. }
  apply IH; [done| |].
  - intros j' v. rewrite lookup_insert. case_decide; [|by apply Hnew].
    intros [= <-]. subst j'. by exists i0, j0.
  - destruct (best.2 <? _); [|done].
    replace (i + 1 - _) with i0 by lia. replace (j + 1 - _) with j0 by lia. done.
Qed.

Lemma scan_rows_from_real blo bhi n s (st : gmap nat nat * Match) :
  row_real sm s st.1 → real_match sm st.2 →
  real_match sm
    (fold_left (λ '(j2len, best) i, scan_row j2len i blo bhi (places sm i) ∅ best)
       (seq s n) st).2.
Proof using Hsound.
  revert s st. induction n as [|n IH]; intros s [j2len best] Hrow Hbest; cbn; [done|].
  destruct (scan_row_real s j2len blo bhi (places sm s) Hrow) with (newj2len := (∅ : gmap nat nat))
    (best := best) as [H1 H2]; [apply places_same_at|apply row_real_empty|done|].
  apply IH; by destruct (scan_row _ _ _ _ _ _ _).
Qed.

Lemma extend_left_real want alo blo besti :
  ∀ bestj bestsize, real_match sm (besti, bestj, bestsize) →
    real_match sm (extend_left sm want alo blo besti bestj bestsize).
Proof.
  induction besti as [|i' IH]; intros bestj bestsize H; [done|].
  cbn [extend_left]. destruct bestj as [|j']; [done|].
  destruct (_ && _) eqn:E; [|done].
  apply IH. rewrite !andb_true_iff in E. destruct E as [_ Hsame].
  intros t Ht. destruct t as [|t]; [by rewrite !Nat.add_0_r|].
  replace (i' + S t) with (S i' + t) by lia. replace (j' + S t) with (S j' + t) by lia.
  apply H. lia.
Qed.

Lemma extend_right_steps_real want ahi bhi n besti bestj :
  ∀ bestsize, real_match sm (besti, bestj, bestsize) →
    real_match sm (extend_right_steps sm want ahi bhi n besti bestj bestsize).
Proof.
  induction n as [|n IH]; intros bestsize H; [done|].
  cbn [extend_right_steps]. destruct (_ && _) eqn:E; [|done].
  apply IH. rewrite !andb_true_iff in E. destruct E as [_ Hsame].
  intros t Ht. destruct (decide (t = bestsize)) as [->|]; [done|]. apply H. lia.
Qed.

Lemma extend_real want alo ahi blo bhi m :
  real_match sm m → real_match sm (extend sm want alo ahi blo bhi m).
Proof.
  destruct m as [[i j] k]. intros H. unfold extend.
  pose proof (extend_left_real want alo blo i j k H) as H'.
  destruct (extend_left _ _ _ _ _ _ _) as [[i' j'] k']. unfold extend_right.
  by apply extend_right_steps_real.
Qed.

Lemma find_longest_match_real alo ahi blo bhi :
  real_match sm (find_longest_match sm alo ahi blo bhi).
Proof using Hsound.
  unfold find_longest_match. do 2 apply extend_real. unfold scan_rows.
  apply scan_rows_from_real; [apply row_real_empty|]. intros t Ht. cbn in Ht. lia.
Qed.

Lemma match_ranges_real steps :
  ∀ queue blocks res,
    Forall (real_match sm) blocks →
    match_ranges sm steps queue blocks = Some res →
    Forall (real_match sm) res.
Proof using Hsound.
  induction steps as [|steps IH]; intros queue blocks res Hb;
    destruct queue as [|[[[alo ahi] blo] bhi] queue]; cbn [match_ranges];
    try (intros [= <-]; done); try done.
  pose proof (find_longest_match_real alo ahi blo bhi) as Hm.
  destruct (find_longest_match sm alo ahi blo bhi) as [[i j] k].
  destruct (k =? 0); [by apply IH|].
  apply IH. apply Forall_app. split; [done|]. by apply Forall_singleton.
Qed.

Lemma collapse_real blocks :
  ∀ i1 j1 k1 non_adjacent,
    Forall (real_match sm) non_adjacent → real_match sm (i1, j1, k1) →
    Forall (real_match sm) blocks →
    Forall (real_match sm) (collapse i1 j1 k1 non_adjacent blocks).
Proof.
  induction blocks as [|[[i2 j2] k2] rest IH]; intros i1 j1 k1 out Hout H1 Hrest;
    cbn [collapse].
  - destruct (k1 =? 0); [done|]. apply Forall_app. split; [done|]. by apply Forall_singleton.
  - apply Forall_cons in Hrest as [H2 Hrest].
    destruct ((i1 + k1 =? i2) && (j1 + k1 =? j2)) eqn:E.
    + apply andb_true_iff in E as [<-%Nat.eqb_eq <-%Nat.eqb_eq].
      apply IH; [done| |done]. intros t Ht.
      destruct (Nat.lt_ge_cases t k1) as [Hlt|Hge]; [by apply H1|].
      replace (i1 + t) with (i1 + k1 + (t - k1)) by lia.
      replace (j1 + t) with (j1 + k1 + (t - k1)) by lia. apply H2. lia.
    + apply IH; [|done|done]. destruct (k1 =? 0); [done|].
      apply Forall_app. split; [done|]. by apply Forall_singleton.
Qed.

Lemma get_matching_blocks_real blocks :
  get_matching_blocks sm = Some blocks → Forall (real_match sm) blocks.
Proof using Hsound.
  unfold get_matching_blocks.
  destruct (match_ranges sm _ _ _) as [res|] eqn:E; [|done]. cbn [mbind option_bind].
  intros [= <-]. apply match_ranges_real in E; [|done].
  apply Forall_app. split.
  - apply collapse_real; [done|by intros t ?; lia|].
    by rewrite (merge_sort_Permutation Match_le res).
  - apply Forall_singleton. intros t ?. lia.
Qed.

Lemma opcodes_from_agree blocks :
  ∀ i j, Forall (real_match sm) blocks →
    Forall (equal_ranges_agree sm) (opcodes_from i j blocks).
Proof.
  induction blocks as [|[[ai bj] size] rest IH]; intros i j Hb; cbn [opcodes_from]; [done|].
  apply Forall_cons in Hb as [Hm Hb].
  apply Forall_app_2; [|by apply IH].
  assert (Forall (equal_ranges_agree sm)
            match (if (i <? ai) && (j <? bj) then Some Replace
                   else if i <? ai then Some Delete
                   else if j <? bj then Some Insert else None) with
            | Some t => [(t, i, ai, j, bj)]
            | None => []
            end) as Htag.
  { destruct (_ && _); [by apply Forall_singleton|].
    destruct (i <? ai); [by apply Forall_singleton|].
    destruct (j <? bj); [by apply Forall_singleton|done]. }
  destruct (size =? 0); [done|]. apply Forall_app_2; [done|].
  apply Forall_singleton. cbn. by replace (ai + size - ai) with size by lia.
Qed.

End real_matches.
End opcodes_facts.

Module opcodes_facts2.
Import difflib difflib_facts opcodes_facts.

Section slices.
Context {A : Type}.
Implicit Types (l : list A).

Lemma slice_split l i m k :
  i ≤ m → m ≤ k → slice l i m ++ slice l m k = slice l i k.
Proof.
  intros Him Hmk. unfold slice.
  replace (drop m l) with (drop (m - i) (drop i l)) by (rewrite drop_drop; f_equal; lia).
  rewrite take_take_drop. f_equal. lia.
Qed.

Lemma slice_empty l i : slice l i i = [].
Proof. unfold slice. by rewrite Nat.sub_diag. Qed.

Lemma length_slice l i k : i ≤ k → k ≤ length l → length (slice l i k) = k - i.
Proof. intros. unfold slice. rewrite length_take, length_drop. lia. Qed.

End slices.

Section opcodes_of_new.
Context (a b : list str).
Let sm := new a b.
Implicit Types (ops : list opcode) (op : opcode).

Lemma new_b2j_sound : b2j_sound (new a b).
Proof.
  intros x js j E Hj. apply b2j_lookup in E as ->.
  apply indices_from_elem in Hj as [_ Hj]. by rewrite Nat.sub_0_r in Hj.
Qed.

Lemma real_match_slices i j k :
  real_match sm (i, j, k) → slice a i (i + k) = slice b j (j + k).
Proof.
  intros H. unfold slice. replace (i + k - i) with k by lia.
  replace (j + k - j) with k by lia. apply list_eq. intros t.
  destruct (Nat.lt_ge_cases t k) as [Ht|Ht].
  - rewrite !lookup_take_lt, !lookup_drop by done.
    specialize (H t Ht). unfold same_at in H. change (difflib.a sm) with a in H.
    change (difflib.b sm) with b in H.
    destruct (a !! (i + t)), (b !! (j + t)); try done.
    by apply bool_decide_eq_true in H as ->.
  - by rewrite !lookup_take_ge.
Qed.

Lemma opcodes_from_well_tagged la lb blocks :
  ∀ i j, ascending i j la lb blocks → Forall well_tagged (opcodes_from i j blocks).
Proof.
  induction blocks as [|[[ai bj] size] rest IH]; intros i j; cbn [ascending opcodes_from];
    [done|].
  intros (Hi & Hj & Hrest). apply Forall_app_2; [|by apply IH].
  assert (Forall well_tagged
            match (if (i <? ai) && (j <? bj) then Some Replace
                   else if i <? ai then Some Delete
                   else if j <? bj then Some Insert else None) with
            | Some t => [(t, i, ai, j, bj)]
            | None => []
            end) as Htag.
  { destruct (Nat.ltb_spec i ai), (Nat.ltb_spec j bj); cbn [andb];
      first [apply Forall_singleton; cbn; lia | apply List.Forall_nil]. }
  destruct (Nat.eqb_spec size 0); [done|]. apply Forall_app_2; [done|].
  apply Forall_singleton. cbn. lia.
Qed.

Lemma ascending_sentinel la lb blocks i j :
  ascending i j la lb blocks → ascending i j la lb (blocks ++ [(la, lb, 0)]).
Proof. intros H. eapply ascending_app; [exact H|]. cbn. lia. Qed.

(** What [get_opcodes] gives for [SequenceMatcher(None, a, b)]. *)
Lemma get_opcodes_spec :
  ∃ ops,
    get_opcodes sm = Some ops
    ∧ contiguous 0 0 (length a) (length b) ops
    ∧ Forall well_tagged ops
    ∧ Forall (λ op, is_equal op = true → a_lines a op = b_lines b op) ops.
Proof.
  destruct (get_matching_blocks_ascending sm) as (blocks & E & Hasc).
  change (length (difflib.a sm)) with (length a) in *.
  change (length (difflib.b sm)) with (length b) in *.
  pose proof (get_matching_blocks_real sm new_b2j_sound _ E) as Hreal.
  pose proof (opcodes_from_contiguous _ _ _ _ _ Hasc) as Hcont.
  pose proof (opcodes_from_well_tagged _ _ _ _ _ (ascending_sentinel _ _ _ _ _ Hasc)) as Htag.
  pose proof (opcodes_from_agree sm _ 0 0 Hreal) as Hagree.
  unfold get_opcodes. rewrite E. cbn [mbind option_bind].
  eexists. split_and!; [reflexivity|done|done|].
  rewrite Forall_forall in Htag, Hagree. apply Forall_forall.
  intros [[[[tag i1] i2] j1] j2] Hin Heq.
  specialize (Htag _ Hin). specialize (Hagree _ Hin).
  destruct tag; try done. cbn in Htag, Hagree. cbn [a_lines b_lines].
  apply real_match_slices in Hagree.
  replace (i1 + (i2 - i1)) with i2 in Hagree by lia.
  destruct (decide (j1 ≤ j2)); [|lia].
  by replace (j1 + (i2 - i1)) with j2 in Hagree by lia.
Qed.

Lemma contiguous_a_lines i j la lb ops :
  contiguous i j la lb ops → concat (map (a_lines a) ops) = slice a i la.
Proof.
  revert i j. induction ops as [|[[[[t i1] i2] j1] j2] rest IH]; intros i j; cbn.
  - intros [-> _]. by rewrite slice_empty.
  - intros (-> & -> & ? & ? & H). pose proof (contiguous_le _ _ _ _ _ H).
    rewrite (IH _ _ H). apply slice_split; lia.
Qed.

Lemma contiguous_b_lines i j la lb ops :
  contiguous i j la lb ops → concat (map (b_lines b) ops) = slice b j lb.
Proof.
  revert i j. induction ops as [|[[[[t i1] i2] j1] j2] rest IH]; intros i j; cbn.
  - intros [_ ->]. by rewrite slice_empty.
  - intros (-> & -> & ? & ? & H). pose proof (contiguous_le _ _ _ _ _ H).
    rewrite (IH _ _ H). apply slice_split; lia.
Qed.

(** Under well-tagged contiguous opcodes, the lines of [b] under the
    opcodes other than [delete] are all the lines of [b]. *)
Lemma replay_b_lines ops :
  Forall well_tagged ops →
  Forall (λ op, is_equal op = true → a_lines a op = b_lines b op) ops →
  concat (map (λ op, if is_equal op then a_lines a op else b_lines b op) ops)
  = concat (map (b_lines b) ops).
Proof.
  induction ops as [|op rest IH]; [done|].
  intros [Ht Hts]%Forall_cons [He Hes]%Forall_cons. cbn [map concat].
  rewrite IH by done. f_equal. destruct (is_equal op); [by apply He|done].
Qed.

Lemma equal_count_bound i j la lb ops :
  contiguous i j la lb ops → Forall well_tagged ops →
  equal_count ops ≤ la - i ∧ equal_count ops ≤ lb - j.
Proof.
  revert i j. induction ops as [|[[[[t i1] i2] j1] j2] rest IH]; intros i j;
    unfold equal_count; cbn [contiguous sum_list_with].
  - lia.
  - intros (-> & -> & ? & ? & H) [Ht Hts]%Forall_cons.
    pose proof (contiguous_le _ _ _ _ _ H).
    destruct (IH _ _ H Hts) as [??]. unfold equal_count in *.
    destruct t; cbn in *; lia.
Qed.

Lemma render_length fg bg add_symbols i j ops :
  contiguous i j (length a) (length b) ops → Forall well_tagged ops →
  length (concat (map (render_opcode a b fg bg add_symbols) ops)) + equal_count ops
  = (length a - i) + (length b - j).
Proof.
  revert i j. induction ops as [|[[[[t i1] i2] j1] j2] rest IH]; intros i j;
    unfold equal_count; cbn [contiguous sum_list_with map concat].
  - intros [-> ->]. cbn. lia.
  - intros (-> & -> & ? & ? & H) [Ht Hts]%Forall_cons.
    pose proof (contiguous_le _ _ _ _ _ H).
    specialize (IH _ _ H Hts). unfold equal_count in IH.
    rewrite length_app.
    set (n := length (concat (map _ rest))) in *.
    match goal with |- context [sum_list_with ?f rest] => set (e := sum_list_with f rest) in * end.
    unfold render_opcode.
    destruct t; cbn in Ht; cbn [app is_equal];
      rewrite ?length_app, ?length_map, ?length_slice, ?app_nil_r by lia; cbn [length];
      lia.
Qed.

End opcodes_of_new.
End opcodes_facts2.

(** ** More on [diff_strings] *)

Section diff_strings_more.
Implicit Types (s t : str) (fg : color_arg) (bg : color_arg * color_arg).

Lemma split_nl_inj s t : split_nl s = split_nl t → s = t.
Proof. intros H. by rewrite <- (join_split_nl s), <- (join_split_nl t), H. Qed.


(** X2. The tag of every opcode fits its ranges: [insert] has an empty
    range in [a] and a non-empty one in [b], [delete] the converse,
    [replace] two non-empty ranges, and [equal] two non-empty ranges of
    the same length. *)
Theorem opcode_tags_fit_ranges s t :
  ∃ ops,
    difflib.get_opcodes (difflib.new (split_nl s) (split_nl t)) = Some ops
    ∧ Forall well_tagged ops.
Proof.
  destruct (opcodes_facts2.get_opcodes_spec (split_nl s) (split_nl t))
    as (ops & E & _ & Htag & _). by exists ops.
Qed.

(** X3. The opcodes hold both texts: the ranges of [a], in order and
    joined with newlines, give the first text; the ranges of [b] give the
    second; and so does replaying the opcodes on [a], keeping the lines
    under [equal] and taking from [b] the lines under the other opcodes. *)
Theorem opcodes_rebuild_both_texts s t :
  let a := split_nl s in
  let b := split_nl t in
  ∃ ops,
    difflib.get_opcodes (difflib.new a b) = Some ops
    ∧ join [NL] (concat (map (a_lines a) ops)) = s
    ∧ join [NL] (concat (map (b_lines b) ops)) = t
    ∧ join [NL] (concat (map (λ op, if is_equal op then a_lines a op else b_lines b op)
                           ops)) = t.
Proof.
  intros a b.
  destruct (opcodes_facts2.get_opcodes_spec a b) as (ops & E & Hc & Htag & Hagree).
  exists ops. split; [done|].
  rewrite (opcodes_facts2.replay_b_lines a b ops Htag Hagree).
  rewrite (opcodes_facts2.contiguous_a_lines a _ _ _ _ _ Hc).
  rewrite (opcodes_facts2.contiguous_b_lines b _ _ _ _ _ Hc).
  rewrite !slice_all. unfold a, b. by rewrite !join_split_nl.
Qed.

(** X4. All the opcodes are [equal] exactly when the two texts are the
    same. *)
Theorem opcodes_all_equal_iff_same_text s t :
  ∃ ops,
    difflib.get_opcodes (difflib.new (split_nl s) (split_nl t)) = Some ops
    ∧ (forallb is_equal ops = true ↔ s = t).
Proof.
  destruct (opcodes_facts2.get_opcodes_spec (split_nl s) (split_nl t))
    as (ops & E & Hc & Htag & Hagree).
  exists ops. split; [done|]. split.
  - intros Hall. apply split_nl_inj.
    rewrite <- (slice_all (split_nl s)),
      <- (slice_all (split_nl t)).
    rewrite <- (opcodes_facts2.contiguous_a_lines (split_nl s) _ _ _ _ _ Hc).
    rewrite <- (opcodes_facts2.contiguous_b_lines (split_nl t) _ _ _ _ _ Hc).
    f_equal. apply map_ext_in. intros op Hin.
    rewrite forallb_forall in Hall. rewrite Forall_forall in Hagree.
    apply Hagree; [by apply list_elem_of_In|by apply Hall].
  - intros <-. rewrite difflib_facts.get_opcodes_same in E.
    destruct (length (split_nl s) =? 0); by injection E as <-.
Qed.

(** X5. [diff_strings] joins as many lines as the two texts have
    together, less the lines under [equal] opcodes, which are emitted
    once: at least as many as the longer text has, at most as many as
    both. *)
Theorem diff_strings_line_count s t fg bg add_symbols :
  let la := length (split_nl s) in
  let lb := length (split_nl t) in
  ∃ ops output,
    difflib.get_opcodes (difflib.new (split_nl s) (split_nl t)) = Some ops
    ∧ diff_strings s t fg bg add_symbols = Some (join [NL] output)
    ∧ length output + equal_count ops = la + lb
    ∧ la `max` lb ≤ length output ≤ la + lb.
Proof.
  intros la lb.
  destruct (opcodes_facts2.get_opcodes_spec (split_nl s) (split_nl t))
    as (ops & E & Hc & Htag & _).
  exists ops, (concat (map (render_opcode (split_nl s) (split_nl t) fg bg add_symbols) ops)).
  pose proof (opcodes_facts2.render_length (split_nl s) (split_nl t) fg bg add_symbols
                0 0 ops Hc Htag) as Hlen.
  pose proof (opcodes_facts2.equal_count_bound _ _ _ _ _ Hc Htag) as [??].
  fold la lb in Hlen. unfold diff_strings. rewrite E. cbn [mbind option_bind].
  split_and!; [done|done|lia|lia|lia].
Qed.

End diff_strings_more.

(** ** More on [textwrap] and [wrap] *)

Module textwrap_more.
Import textwrap textwrap_facts.

Lemma len_app (s t : str) : len (s ++ t) = (len s + len t)%Z.
Proof. unfold len. rewrite length_app. lia. Qed.

Section next_line_facts.
Context (w : TextWrapper).
Hypothesis Hindent : initial_indent w = subsequent_indent w.
Let indent := initial_indent w.
Let width' := (width w - len indent)%Z.
Implicit Types (chunks cur_line taken rest lines : list str).

Lemma fill_line_spec chunks :
  ∀ cur_line cur_len,
    ∃ taken rest,
      fill_line width' chunks cur_line cur_len = (cur_line ++ taken, rest)
      ∧ chunks = taken ++ rest
      ∧ (taken = [] ∨ (cur_len + len (concat taken) ≤ width')%Z)
      ∧ match rest with
        | chunk :: _ => (width' < cur_len + len (concat taken) + len chunk)%Z
        | [] => True
        end.
Proof.
  induction chunks as [|chunk chunks IH]; intros cur_line cur_len; cbn [fill_line].
  - exists [], []. rewrite app_nil_r. split_and!; [done|done|by left|done].
  - destruct (Z.leb_spec (cur_len + len chunk) width') as [Hfit|Hfull].
    + destruct (IH (cur_line ++ [chunk]) (cur_len + len chunk)%Z)
        as (taken & rest & E & -> & Hle & Hrest).
      exists (chunk :: taken), rest. rewrite E, <- app_assoc.
      cbn [concat]. rewrite len_app.
      split_and!; [done|done| |].
      * right. destruct Hle as [->|?]; [change (len (concat [])) with 0%Z; lia|lia].
      * destruct rest; [done|]. lia.
    + exists [], (chunk :: chunks). rewrite app_nil_r. cbn.
      split_and!; [done|done|by left|]. change (len []) with 0%Z. lia.
Qed.

(** One iteration: the chunks [taken] for the line, between blank chunks
    that are dropped, and the chunks left. *)
Lemma next_line_spec lines chunks :
  chunks ≠ [] →
  ∃ before taken after rest,
    next_line w lines chunks
    = (match taken with [] => None | _ => Some (indent ++ concat taken) end, rest)
    ∧ chunks = before ++ taken ++ after ++ rest
    ∧ forallb blank before = true ∧ forallb blank after = true
    ∧ (taken = [] ∨ fits w taken)
    ∧ (after = [] → match last taken with Some l => blank l = false | None => True end).
Proof using Hindent.
  intros Hne. unfold next_line.
  replace (match lines with [] => initial_indent w | _ :: _ => subsequent_indent w end)
    with indent by (destruct lines; [done|exact Hindent]).
  fold width'.
  set (chunks1 := match chunks, lines with
                  | chunk :: rest, _ :: _ => if blank chunk then rest else chunks
                  | _, _ => chunks
                  end).
  assert (∃ before, chunks = before ++ chunks1 ∧ forallb blank before = true)
    as (before & Hch & Hbefore).
  { unfold chunks1. destruct chunks as [|c rest]; [done|].
    destruct lines; [by exists []|]. destruct (blank c) eqn:Ec; [|by exists []].
    exists [c]. cbn. by rewrite Ec. }
  clearbody chunks1. subst chunks. clear Hne.
  destruct (fill_line_spec chunks1 [] 0) as (taken0 & rest0 & -> & -> & Hfit & Hrest).
  cbn [app].
  (* the long word *)
  assert (∃ taken1 rest1,
            match rest0 with
            | chunk :: _ =>
                if (width' <? len chunk)%Z then _handle_long_word rest0 taken0
                else (taken0, rest0)
            | [] => (taken0, rest0)
            end = (taken1, rest1)
            ∧ taken0 ++ rest0 = taken1 ++ rest1
            ∧ (taken1 = [] ∨ fits w taken1)) as (taken1 & rest1 & -> & -> & Hfit1).
  { assert (taken0 = [] ∨ fits w taken0) as Hfit0.
    { destruct Hfit as [?|?]; [by left|right; left; unfold width', indent in *; lia]. }
    destruct rest0 as [|c rest0]; [by exists taken0, []|].
    destruct (width' <? len c)%Z; [|by exists taken0, (c :: rest0)].
    destruct taken0 as [|c0 taken0]; cbn [_handle_long_word].
    - exists [c], rest0. split_and!; [done|done|]. right. by right.
    - by exists (c0 :: taken0), (c :: rest0). }
  (* the trailing blank chunk *)
  destruct (last taken1) as [l|] eqn:El.
  - apply last_Some in El as [taken ->].
    destruct (blank l) eqn:Eb.
    + rewrite removelast_last. exists before, taken, [l], rest1.
      split_and!; [by destruct taken|by rewrite <- !app_assoc|done|cbn; by rewrite Eb| |done].
      destruct taken as [|c taken]; [by left|right].
      destruct Hfit1 as [Hnil|[Hle|Hone]]; [by destruct taken|left|].
      * rewrite concat_app, len_app in Hle. unfold len in *. lia.
      * rewrite length_app in Hone. cbn in Hone. lia.
    + exists before, (taken ++ [l]), [], rest1.
      split_and!; [by destruct taken|done|done|done|done|].
      intros _. by rewrite last_snoc.
  - apply last_None in El as ->. by exists before, [], [], rest1.
Qed.


Lemma filter_blank chunks :
  forallb blank chunks = true → List.filter nonblank chunks = [].
Proof.
  induction chunks as [|c chunks IH]; [done|]. cbn. unfold nonblank at 1.
  destruct (blank c); [|done]. cbn. exact IH.
Qed.

(** The loop: the lines made are groups of consecutive chunks behind the
    indentation; between the groups only blank chunks are left out. *)
Lemma wrap_loop_groups n :
  ∀ chunks lines, length chunks ≤ n →
    ∃ groups,
      (wrap_loop w n chunks lines).1 = lines ++ map (λ g, indent ++ concat g) groups
      ∧ Forall (λ g, g ≠ [] ∧ fits w g) groups
      ∧ List.filter nonblank (concat groups) = List.filter nonblank chunks
      ∧ concat groups `sublist_of` chunks.
Proof using Hindent.
  induction n as [|n IH]; intros chunks lines Hn.
  { destruct chunks; [|cbn in Hn; lia]. exists []. by rewrite app_nil_r. }
  destruct chunks as [|c chunks]; [exists []; by rewrite app_nil_r|].
  cbn [wrap_loop].
  pose proof (next_line_shrinks w lines (c :: chunks) ltac:(done)) as Hs.
  destruct (next_line_spec lines (c :: chunks) ltac:(done))
    as (before & taken & after & rest & E & Hch & Hb & Ha & Hfit & _).
  rewrite E in Hs |- *. cbn [snd] in Hs. rewrite Hch. clear E.
  assert (List.filter nonblank (before ++ taken ++ after ++ rest)
          = List.filter nonblank taken ++ List.filter nonblank rest) as Hfilter.
  { by rewrite !List.filter_app, (filter_blank before), (filter_blank after). }
  assert (taken ++ rest `sublist_of` before ++ taken ++ after ++ rest) as Hsub.
  { apply sublist_inserts_l, sublist_app; [done|]. by apply sublist_inserts_l. }
  destruct taken as [|t taken].
  - destruct (IH rest lines) as (groups & -> & Hg & Hf & Hsl); [cbn in *; lia|].
    exists groups. split_and!; [done|done|by rewrite Hfilter, Hf|].
    etrans; [exact Hsl|exact Hsub].
  - destruct (IH rest (lines ++ [indent ++ concat (t :: taken)]))
      as (groups & -> & Hg & Hf & Hsl); [cbn in *; lia|].
    exists ((t :: taken) :: groups). rewrite <- app_assoc.
    split_and!; [done| | |].
    + apply Forall_cons. split; [|done]. split; [done|]. by destruct Hfit.
    + cbn [concat]. by rewrite List.filter_app, Hf, Hfilter.
    + cbn [concat]. etrans; [|exact Hsub]. by apply sublist_app.
Qed.

End next_line_facts.

Section split_facts.
Implicit Types (s text : str).

Lemma _split_concat s : concat (_split s) = s.
Proof.
  induction s as [|c s IH]; [done|]. cbn [_split].
  destruct (_split s) as [|[|d chunk] chunks]; cbn in *; [by subst|by subst|].
  destruct (eqb _ _); cbn; by rewrite <- IH.
Qed.

Lemma _split_nonempty s : Forall (λ chunk, chunk ≠ []) (_split s).
Proof.
  induction s as [|c s IH]; [done|]. cbn [_split].
  destruct (_split s) as [|[|d chunk] chunks]; [by repeat constructor| |].
  - apply Forall_cons in IH as [? _]. done.
  - destruct (eqb _ _); repeat (apply Forall_cons; split; [done|]);
      by apply Forall_cons in IH as [_ ?].
Qed.

Lemma _munge_whitespace_no_newline text : NL ∉ _munge_whitespace text.
Proof.
  unfold _munge_whitespace. intros [c [Hc _]]%list_elem_of_fmap.
  destruct (in_whitespace c) eqn:E; [done|]. subst c. done.
Qed.

End split_facts.
End textwrap_more.

Module wrap_facts.
Import textwrap_facts textwrap_more.

Section wrap_more.
Implicit Types (text line : str) (wrap_max indent : Z).

Lemma len_indentation indent : textwrap.len (indentation indent) = Z.max indent 0.
Proof. unfold textwrap.len, indentation. rewrite length_replicate. lia. Qed.

Lemma wrap_unfold text wrap_max indent :
  wrap text wrap_max indent
  = let w := wrapper wrap_max indent in
    if (textwrap.width w <=? 0)%Z then Raise ValueError
    else Ok (join [NL]
               (textwrap.wrap_loop w (length (textwrap._split_chunks text)) (textwrap._split_chunks text) []).1).
Proof.
  unfold wrap, textwrap.fill, textwrap.wrap, textwrap._wrap_chunks, wrapper, indentation, to_string.
  cbn [textwrap.width].
  by destruct (_ <=? 0)%Z.
Qed.

Lemma wrapper_width wrap_max indent :
  textwrap.width (wrapper wrap_max indent) = (wrap_max - Z.max indent 0)%Z.
Proof. unfold wrapper. cbn [textwrap.width]. by rewrite len_indentation. Qed.

Lemma split_nl_no_newline line : NL ∉ line → split_nl line = [line].
Proof.
  induction line as [|c line IH]; [done|]. intros Hnl. cbn [split_nl].
  destruct (Z.eqb_spec c NL) as [->|_]; [by destruct Hnl; left|].
  rewrite IH; [done|]. intros ?. apply Hnl. by right.
Qed.

Lemma split_nl_app_newline line rest :
  NL ∉ line → split_nl (line ++ NL :: rest) = line :: split_nl rest.
Proof.
  induction line as [|c line IH]; intros Hnl; cbn [app split_nl].
  - by rewrite Z.eqb_refl.
  - destruct (Z.eqb_spec c NL) as [->|_]; [by destruct Hnl; left|].
    rewrite IH; [done|]. intros ?. apply Hnl. by right.
Qed.

Lemma split_nl_join lines :
  lines ≠ [] → Forall (λ line, NL ∉ line) lines → split_nl (join [NL] lines) = lines.
Proof.
  induction lines as [|line lines IH]; [done|]. intros _ [Hl Hls]%Forall_cons.
  destruct lines as [|line' lines]; [by apply split_nl_no_newline|].
  rewrite join_cons. cbn [app]. rewrite split_nl_app_newline by done.
  by rewrite IH.
Qed.

Lemma _split_chunks_no_newline text chunk :
  chunk ∈ textwrap._split_chunks text → chunk ≠ [] ∧ NL ∉ chunk.
Proof.
  unfold textwrap._split_chunks. intros Hin. split.
  - pose proof (_split_nonempty (textwrap._munge_whitespace text)) as H.
    rewrite Forall_forall in H. by apply H.
  - intros Hnl. apply (_munge_whitespace_no_newline text).
    rewrite <- (_split_concat (textwrap._munge_whitespace text)).
    apply list_elem_of_In, in_concat. exists chunk.
    split; by apply list_elem_of_In.
Qed.

(** [wrap], when it returns: the lines are groups of chunks of the text
    behind the indentation. *)
Lemma wrap_groups text wrap_max indent :
  (Z.max indent 0 < wrap_max)%Z →
  ∃ groups,
    let lines := map (λ g, indentation indent ++ concat g) groups in
    wrap text wrap_max indent = Ok (join [NL] lines)
    ∧ Forall (λ g, g ≠ [] ∧ fits (wrapper wrap_max indent) g) groups
    ∧ List.filter nonblank (concat groups) = List.filter nonblank (textwrap._split_chunks text)
    ∧ concat groups `sublist_of` textwrap._split_chunks text
    ∧ (join [NL] lines = [] ∨ split_nl (join [NL] lines) = lines).
Proof.
  intros Hw. rewrite wrap_unfold. cbn zeta. rewrite wrapper_width.
  destruct (Z.leb_spec (wrap_max - Z.max indent 0) 0); [lia|].
  destruct (wrap_loop_groups (wrapper wrap_max indent) eq_refl
              (length (textwrap._split_chunks text)) (textwrap._split_chunks text) [])
    as (groups & -> & Hg & Hf & Hs); [done|].
  exists groups. cbn [app wrapper textwrap.initial_indent].
  split_and!; [done|done|done|done|].
  destruct groups as [|g groups]; [by left|right].
  apply split_nl_join; [done|]. apply Forall_forall.
  intros line (g' & -> & Hg')%list_elem_of_fmap.
  intros [Hin|Hin]%elem_of_app.
  - apply elem_of_replicate in Hin as [? _]. done.
  - apply list_elem_of_In, in_concat in Hin as (chunk & Hc & Hin).
    assert (chunk ∈ textwrap._split_chunks text) as Hchunk.
    { eapply elem_of_sublist; [|exact Hs].
      apply list_elem_of_In, in_concat. exists g'. split; [by apply list_elem_of_In|done]. }
    apply _split_chunks_no_newline in Hchunk as [_ Hnl]. by apply Hnl, list_elem_of_In.
Qed.

End wrap_more.
End wrap_facts.

Module wrap_blank.
Import textwrap_facts textwrap_more.

Section blank_text.
Implicit Types (text s : str).







End blank_text.
End wrap_blank.

(** ** More on [wrap] *)

Section wrap_extras.
Implicit Types (text line : str) (wrap_max indent : Z).

(** X6. [wrap] raises [ValueError] exactly when [wrap_max] does not exceed
    the indentation (a negative [indent] counting as none), whatever the
    text, the empty one included; otherwise it returns a string. *)
Theorem wrap_raises_iff text wrap_max indent :
  (wrap text wrap_max indent = Raise ValueError ↔ (wrap_max ≤ Z.max indent 0)%Z)
  ∧ ((∃ out, wrap text wrap_max indent = Ok out) ↔ (Z.max indent 0 < wrap_max)%Z).
Proof.
  rewrite wrap_facts.wrap_unfold. cbn zeta. rewrite wrap_facts.wrapper_width.
  destruct (Z.leb_spec (wrap_max - Z.max indent 0) 0).
  - split; [split; [lia|done]|]. split; [by intros [? ?]|lia].
  - split; [split; [done|lia]|]. split; [lia|eauto].
Qed.

(** X7. When [wrap] returns, every line of its output starts with the
    indentation, followed by at least one more character; the output is
    empty when there is no line at all. *)
Theorem wrap_lines_start_with_indent text wrap_max indent :
  (Z.max indent 0 < wrap_max)%Z →
  ∃ out,
    wrap text wrap_max indent = Ok out
    ∧ (out = []
       ∨ Forall (λ line, ∃ body, line = indentation indent ++ body ∧ body ≠ [])
           (split_nl out)).
Proof.
  intros Hw. destruct (wrap_facts.wrap_groups text wrap_max indent Hw)
    as (groups & E & Hg & _ & Hs & Hlines). cbn zeta in *.
  eexists. split; [exact E|]. destruct Hlines as [? | ->]; [by left|right].
  apply Forall_fmap. rewrite Forall_forall in Hg. apply Forall_forall.
  intros g Hin. exists (concat g). split; [done|].
  destruct (Hg g Hin) as [Hne _]. destruct g as [|chunk g]; [done|].
  assert (chunk ∈ textwrap._split_chunks text) as Hchunk.
  { eapply elem_of_sublist; [|exact Hs]. apply list_elem_of_In, in_concat.
    exists (chunk :: g). split; [by apply list_elem_of_In|by left]. }
  apply wrap_facts._split_chunks_no_newline in Hchunk as [Hc _].
  cbn [concat]. by destruct chunk.
Qed.

Lemma wrap_lines_start_with_indent_witness :
  (Z.max 4 0 < 10)%Z
  ∧ ∃ out,
      wrap (lit "a b c d") 10 4 = Ok out
      ∧ (out = []
         ∨ Forall (λ line, ∃ body, line = indentation 4 ++ body ∧ body ≠ [])
             (split_nl out)).
Proof.
  assert (Z.max 4 0 < 10)%Z as H by lia.
  split; [exact H|]. exact (wrap_lines_start_with_indent (lit "a b c d") 10 4 H).
Defined.

(** X8. When [wrap] returns, a line of its output, indentation included,
    is at most [wrap_max - indent] characters long, unless it holds a
    single chunk of the text (a word that does not fit). *)
Theorem wrap_line_width text wrap_max indent :
  (Z.max indent 0 < wrap_max)%Z →
  ∃ out,
    wrap text wrap_max indent = Ok out
    ∧ (out = []
       ∨ Forall (λ line,
                   (textwrap.len line ≤ wrap_max - Z.max indent 0)%Z
                   ∨ ∃ word, word ∈ textwrap._split_chunks text
                             ∧ line = indentation indent ++ word)
           (split_nl out)).
Proof.
  intros Hw. destruct (wrap_facts.wrap_groups text wrap_max indent Hw)
    as (groups & E & Hg & _ & Hs & Hlines). cbn zeta in *.
  eexists. split; [exact E|]. destruct Hlines as [? | ->]; [by left|right].
  apply Forall_fmap. rewrite Forall_forall in Hg. apply Forall_forall.
  intros g Hin. destruct (Hg g Hin) as [Hne [Hfit|Hone]].
  - left. rewrite textwrap_more.len_app. cbn [wrapper textwrap.initial_indent textwrap.width] in Hfit.
    rewrite wrap_facts.len_indentation in *. lia.
  - right. destruct g as [|word [|? ?]]; try done. exists word. cbn. rewrite app_nil_r.
    split; [|done]. eapply elem_of_sublist; [|exact Hs].
    apply list_elem_of_In, in_concat. exists [word].
    split; [by apply list_elem_of_In|by left].
Qed.

Lemma wrap_line_width_witness :
  (Z.max 2 0 < 5)%Z
  ∧ ∃ out,
      wrap (lit "Hello world, this is a test.") 5 2 = Ok out
      ∧ (out = []
         ∨ Forall (λ line,
                     (textwrap.len line ≤ 5 - Z.max 2 0)%Z
                     ∨ ∃ word, word ∈ textwrap._split_chunks (lit "Hello world, this is a test.")
                               ∧ line = indentation 2 ++ word)
             (split_nl out)).
Proof.
  assert (Z.max 2 0 < 5)%Z as H by lia.
  split; [exact H|].
  exact (wrap_line_width (lit "Hello world, this is a test.") 5 2 H).
Defined.





End wrap_extras.

(** ** More on the codecs *)

Section codec_more.
Implicit Types (enc : encoding) (err : errors) (s t : str) (c : Z).
Local Open Scope Z_scope.

Lemma encode_strict_ok enc t :
  (∃ bs, encode enc ErrStrict t = Ok bs) ↔ forallb (encodable enc) t = true.
Proof.
  induction t as [|c t IH]; cbn [encode forallb]; [split; [done|eauto]|].
  unfold encodable at 1. destruct (encode_char enc c) as [bs|]; cbn [andb].
  - rewrite <- IH. destruct (encode enc ErrStrict t) as [rest|e]; cbn [bind].
    + split; intros _; eauto.
    + split; intros [? ?]; done.
  - split; [by intros [? ?]|done].
Qed.

Lemma can_render_encodable enc t :
  can_render enc t = Ok (forallb (encodable enc) t).
Proof.
  unfold can_render. pose proof (encode_strict_ok enc t) as H.
  destruct (encode enc ErrStrict t) as [bs|e] eqn:E.
  - f_equal. symmetry. apply H. eauto.
  - apply encode_raises in E as ->. f_equal. symmetry.
    apply not_true_is_false. intros Hall. apply H in Hall as [? ?]. done.
Qed.

Lemma escaped_fixed enc c : escaped enc c = c ↔ encodable enc c = true.
Proof.
  unfold escaped, encodable. destruct (encode_char enc c) eqn:E; [done|].
  split; [|done]. intros H. rewrite <- H, encode_char_question in E. done.
Qed.

Lemma map_escaped_fixed enc t :
  map (escaped enc) t = t ↔ forallb (encodable enc) t = true.
Proof.
  induction t as [|c t IH]; cbn; [done|].
  rewrite andb_true_iff, <- IH, <- escaped_fixed. split.
  - by intros [= ? ?].
  - by intros [-> ->].
Qed.






(** X12. Under ASCII and UTF-8, [can_render] tells whether [locale_escape]
    changes the text: the text comes back unchanged exactly when it can
    be rendered. *)
Theorem can_render_iff_escape_unchanged STDOUT_ENCODING t :
  utf8_compatible (ENCODING STDOUT_ENCODING) = true →
  Forall is_code_point t →
  (can_render (ENCODING STDOUT_ENCODING) t = Ok true
   ↔ locale_escape (ENCODING STDOUT_ENCODING) t ErrReplace = Ok t).
Proof.
  intros Henc Ht. rewrite can_render_encodable, locale_escape_replace by done.
  split; intros [= H]; f_equal; by apply map_escaped_fixed.
Qed.

Lemma can_render_iff_escape_unchanged_witness :
  utf8_compatible (ENCODING None) = true
  ∧ Forall is_code_point [0x68; 0xE9]
  ∧ (can_render (ENCODING None) [0x68; 0xE9] = Ok true
     ↔ locale_escape (ENCODING None) [0x68; 0xE9] ErrReplace = Ok [0x68; 0xE9]).
Proof.
  assert (Forall is_code_point [0x68; 0xE9]) as H.
  { repeat (apply Forall_cons_2; [unfold is_code_point; lia|]). apply List.Forall_nil. }
  split; [reflexivity|]. split; [exact H|].
  exact (can_render_iff_escape_unchanged None [0x68; 0xE9] eq_refl H).
Defined.

(** X13. Under ASCII and UTF-8, what [locale_escape] returns with the
    ["replace"] policy has as many characters as the text and can be
    rendered. *)
Theorem locale_escape_output_renders STDOUT_ENCODING t :
  utf8_compatible (ENCODING STDOUT_ENCODING) = true →
  Forall is_code_point t →
  ∃ u,
    locale_escape (ENCODING STDOUT_ENCODING) t ErrReplace = Ok u
    ∧ length u = length t
    ∧ can_render (ENCODING STDOUT_ENCODING) u = Ok true.
Proof.
  intros Henc Ht. exists (map (escaped (ENCODING STDOUT_ENCODING)) t).
  split_and!; [by apply locale_escape_replace|by rewrite length_map|].
  rewrite can_render_encodable. f_equal. apply map_escaped_fixed.
  rewrite map_map. apply map_ext. intros c. apply escaped_idemp.
Qed.

Lemma locale_escape_output_renders_witness :
  utf8_compatible (ENCODING None) = true
  ∧ Forall is_code_point [0x2714; 0x20; 0x6F; 0x6B]
  ∧ ∃ u,
      locale_escape (ENCODING None) [0x2714; 0x20; 0x6F; 0x6B] ErrReplace = Ok u
      ∧ length u = length [0x2714; 0x20; 0x6F; 0x6B]
      ∧ can_render (ENCODING None) u = Ok true.
Proof.
  assert (Forall is_code_point [0x2714; 0x20; 0x6F; 0x6B]) as H.
  { repeat (apply Forall_cons_2; [unfold is_code_point; lia|]). apply List.Forall_nil. }
  split; [reflexivity|]. split; [exact H|].
  exact (locale_escape_output_renders None [0x2714; 0x20; 0x6F; 0x6B] eq_refl H).
Defined.

End codec_more.

Section codec_policies.
Implicit Types (enc : encoding) (err : errors) (s t : str) (c : Z).
Local Open Scope Z_scope.

Lemma encode_all_encodable enc err t :
  forallb (encodable enc) t = true → encode enc err t = encode enc ErrReplace t.
Proof.
  induction t as [|c t IH]; [done|]. cbn [forallb encode]. unfold encodable at 1.
  destruct (encode_char enc c); [|done]. cbn [andb]. by intros ->%IH.
Qed.

Lemma locale_escape_ignore enc t :
  utf8_compatible enc = true → Forall is_code_point t →
  locale_escape enc t ErrIgnore = Ok (List.filter (encodable enc) t).
Proof.
  intros Henc. unfold locale_escape, to_string.
  induction 1 as [|c t Hc Ht IH]; [done|].
  cbn [encode List.filter]. unfold encodable at 1.
  destruct (encode_char enc c) as [bs|] eqn:Ec; [|done].
  destruct (encode enc ErrIgnore t) as [rest|e] eqn:E; cbn [bind] in *; [|done].
  by rewrite (utf8_char_roundtrip enc c bs rest Henc Hc Ec), IH.
Qed.

(** X14. Under ASCII and UTF-8, the other error policies of
    [locale_escape]: ["ignore"] drops the characters the encoding cannot
    encode and keeps the others in order; ["strict"] returns the text
    unchanged when all its characters can be encoded and raises
    [UnicodeEncodeError] otherwise. *)
Theorem locale_escape_other_policies STDOUT_ENCODING t :
  utf8_compatible (ENCODING STDOUT_ENCODING) = true →
  Forall is_code_point t →
  let enc := ENCODING STDOUT_ENCODING in
  locale_escape enc t ErrIgnore = Ok (List.filter (encodable enc) t)
  ∧ locale_escape enc t ErrStrict
    = (if forallb (encodable enc) t then Ok t else Raise UnicodeEncodeError).
Proof.
  intros Henc Ht enc. split; [by apply locale_escape_ignore|].
  destruct (forallb (encodable enc) t) eqn:Hall.
  - pose proof (locale_escape_replace enc t Henc Ht) as H.
    unfold locale_escape, to_string in *. rewrite (encode_all_encodable enc ErrStrict t Hall), H.
    f_equal. by apply map_escaped_fixed.
  - unfold locale_escape, to_string.
    destruct (encode enc ErrStrict t) as [bs|e] eqn:E.
    + assert (forallb (encodable enc) t = true) by (apply encode_strict_ok; eauto). congruence.
    + by apply encode_raises in E as ->.
Qed.

Lemma locale_escape_other_policies_witness :
  utf8_compatible (ENCODING None) = true
  ∧ Forall is_code_point [0x68; 0xE9; 0x21]
  ∧ locale_escape ASCII [0x68; 0xE9; 0x21] ErrIgnore
    = Ok (List.filter (encodable ASCII) [0x68; 0xE9; 0x21])
  ∧ locale_escape ASCII [0x68; 0xE9; 0x21] ErrStrict
    = (if forallb (encodable ASCII) [0x68; 0xE9; 0x21]
       then Ok [0x68; 0xE9; 0x21] else Raise UnicodeEncodeError).
Proof.
  assert (Forall is_code_point [0x68; 0xE9; 0x21]) as H.
  { repeat (apply Forall_cons_2; [unfold is_code_point; lia|]). apply List.Forall_nil. }
  split; [reflexivity|]. split; [exact H|].
  exact (locale_escape_other_policies None [0x68; 0xE9; 0x21] eq_refl H).
Defined.








End codec_policies.

(** ** [format_repr] *)

Section format_repr_facts.
Implicit Types (string ellipsis : str) (max_len : Z).
Local Open Scope Z_scope.

(** X17. For [max_len] of 2 or more (and within the exact range of the
    division), [format_repr] returns a repr shorter than [max_len] as it
    is; otherwise it keeps the first [max_len // 2] and the last
    [max_len // 2] characters around [" " + ellipsis + " "], so the
    result is [2 * (max_len // 2) + len(ellipsis) + 2] characters long,
    whatever the length of the repr: longer than [max_len], and longer
    than a repr that is just [max_len] long. *)
Theorem format_repr_shortened string max_len ellipsis :
  2 ≤ max_len ≤ 2 ^ 53 →
  let half := Z.to_nat (max_len / 2) in
  format_repr string max_len ellipsis
  = (if max_len <=? Z.of_nat (length string)
     then take half string ++ lit " " ++ ellipsis ++ lit " "
          ++ drop (length string - half) string
     else string)
  ∧ (if max_len <=? Z.of_nat (length string)
     then length (format_repr string max_len ellipsis)
          = (2 * half + length ellipsis + 2)%nat
     else format_repr string max_len ellipsis = string).
Proof.
  intros Hmax half. unfold format_repr.
  destruct (Z.leb_spec max_len (Z.of_nat (length string))) as [Hlen|Hlen]; [|done].
  assert (max_len ÷ 2 = max_len / 2) as Hq by (apply Z.quot_div_nonneg; lia).
  assert (0 < max_len / 2 ≤ Z.of_nat (length string)) as Hhalf.
  { split; [apply Z.div_str_pos; lia|]. etrans; [|exact Hlen]. apply Z.div_le_upper_bound; lia. }
  assert (slice_to string (max_len ÷ 2) = take half string) as ->.
  { unfold slice_to, slice_index. rewrite Hq.
    destruct (Z.ltb_spec (max_len / 2) 0); [lia|]. f_equal. unfold half. lia. }
  assert (slice_from string (- (max_len ÷ 2)) = drop (length string - half) string) as ->.
  { unfold slice_from, slice_index. rewrite Hq.
    destruct (Z.ltb_spec (- (max_len / 2)) 0); [|lia]. f_equal. unfold half. lia. }
  split; [done|].
  rewrite !length_app, length_take, length_drop. cbn [length lit map list_ascii_of_string].
  unfold half. lia.
Qed.

Lemma format_repr_shortened_witness :
  2 ≤ 6 ≤ 2 ^ 53
  ∧ format_repr (lit "'abcdefghij'") 6 (lit "...") = lit "'ab ... ij'"
  ∧ length (format_repr (lit "'abcdefghij'") 6 (lit "...")) = 11%nat.
Proof.
  assert (2 ≤ 6 ≤ 2 ^ 53) as H by (cbn; lia).
  split; [exact H|].
  exact (format_repr_shortened (lit "'abcdefghij'") 6 (lit "...") H).
Defined.



End format_repr_facts.

(** ** [get_raw_input] *)

Section get_raw_input_facts.
Implicit Types (description typed : str) (default : option str) (indent : Z).


End get_raw_input_facts.

(** ** More on the console and [supports_ansi] *)

Section console_facts.
Implicit Types (environ : gmap (list Z) (list Z)) (platform : str) (handle : console).

(** X20. With a handle behind [sys.stdout], the probe of the Windows
    console never raises: a failing [GetConsoleMode] or [SetConsoleMode]
    gives [False] and leaves the console as it was.  [True] is returned
    only when the mode read back has the virtual-terminal flag, after a
    [SetConsoleMode] asking for the former flags and that flag. *)
Theorem _windows_console_supports_ansi_result handle :
  ∃ (supported : bool) handle',
    _windows_console_supports_ansi (Some handle) = (Ok supported, Some handle')
    ∧ accepts handle' = accepts handle
    ∧ (if supported
       then ∃ flags flags',
              mode handle = Some flags
              ∧ accepts handle (Z.lor flags ENABLE_VIRTUAL_TERMINAL_PROCESSING) = Some flags'
              ∧ mode handle' = Some flags'
              ∧ Z.testbit flags' 2 = true
       else (mode handle = None → handle' = handle)
            ∧ (∀ flags, mode handle = Some flags →
                 accepts handle (Z.lor flags ENABLE_VIRTUAL_TERMINAL_PROCESSING) = None →
                 handle' = handle)).
Proof.
  unfold _windows_console_supports_ansi, GetConsoleMode, SetConsoleMode.
  destruct (mode handle) as [flags|] eqn:Em; [|by exists false, handle].
  destruct (accepts handle _) as [flags'|] eqn:Ea; cbn [mode].
  - destruct (Z.eqb_spec (Z.land flags' ENABLE_VIRTUAL_TERMINAL_PROCESSING) 0) as [Hz|Hnz].
    + eexists false, _. split_and!; [done|done| |]; [done|]. intros ? [= <-]. congruence.
    + eexists true, _. split_and!; [done|done|].
      exists flags, flags'. split_and!; [done|done|done|].
      destruct (Z.testbit flags' 2) eqn:Eb; [done|]. exfalso. apply Hnz.
      apply Z.bits_inj'. intros n Hn. rewrite Z.land_spec, Z.bits_0.
      destruct (decide (n = 2%Z)) as [->|]; [by rewrite Eb|].
      replace (Z.testbit ENABLE_VIRTUAL_TERMINAL_PROCESSING n) with false;
        [by rewrite andb_false_r|].
      unfold ENABLE_VIRTUAL_TERMINAL_PROCESSING. change 4%Z with (2 ^ 2)%Z.
      symmetry. apply Z.pow2_bits_false. lia.
  - exists false, handle. split_and!; [done|done|done|done].
Qed.



End console_facts.

(** ** More on [color] *)

Section color_more.
Implicit Types (t : str) (fg bg : color_arg) (bold underline : bool).

Lemma COLORS_range : map_Forall (λ _ n, (1 ≤ n ≤ 16)%Z) COLORS.
Proof.
  apply map_Forall_to_list.
  match goal with |- Forall _ ?l => set (entries := l) end.
  vm_compute in entries. subst entries.
  repeat (apply Forall_cons_2; [cbn; lia|]). apply List.Forall_nil.
Qed.

(** X22. Every name of [COLORS] stands for an index from 1 to 16, never
    0: a colour given by a name of the table always styles the text, as
    foreground with [38;5;<index>] and as background with
    [48;5;<index>]. *)
Theorem named_colors_always_style :
  map_Forall (λ name n,
                (1 ≤ n ≤ 16)%Z
                ∧ ∀ t,
                    color t (Name name) NoColor false false
                    = escape (lit "38;5;" ++ str_of_int n) t
                    ∧ color t NoColor (Name name) false false
                      = escape (lit "48;5;" ++ str_of_int n) t)
    COLORS.
Proof.
  intros name n H. pose proof (COLORS_range name n H) as Hn. cbn beta in Hn.
  split; [done|]. intros t. unfold color, COLORS_get. rewrite H. unfold any. cbn [existsb truthy id].
  destruct (Z.eqb_spec n 0); [lia|]. cbn [negb orb]. unfold styles_of. cbn [truthy].
  destruct (Z.eqb_spec n 0); [lia|]. by cbn.
Qed.

(** X23. [color] does not validate a colour: any integer other than 0,
    negative or above 256 as well, and any non-empty name missing from
    [COLORS], goes into the escape sequence as it is written. *)
Theorem color_no_validation t :
  (∀ n, n ≠ 0%Z →
        color t (Index n) NoColor false false = escape (lit "38;5;" ++ str_of_int n) t
        ∧ color t NoColor (Index n) false false = escape (lit "48;5;" ++ str_of_int n) t)
  ∧ (∀ name, COLORS !! name = None → name ≠ [] →
             color t (Name name) NoColor false false = escape (lit "38;5;" ++ name) t
             ∧ color t NoColor (Name name) false false = escape (lit "48;5;" ++ name) t).
Proof.
  split.
  - intros n Hn. unfold color, COLORS_get, any, styles_of. cbn [existsb truthy id].
    destruct (Z.eqb_spec n 0); [done|]. by cbn.
  - intros name Hnone Hne. unfold color, COLORS_get, any, styles_of. rewrite Hnone.
    cbn [existsb truthy id]. rewrite bool_decide_eq_false_2 by done. by cbn.
Qed.

Lemma color_no_validation_witness :
  (999 ≠ 0)%Z
  ∧ color (lit "x") (Index 999) NoColor false false
    = escape (lit "38;5;" ++ str_of_int 999) (lit "x")
  ∧ COLORS !! lit "purple" = None
  ∧ lit "purple" ≠ []
  ∧ color (lit "x") (Name (lit "purple")) NoColor false false
    = escape (lit "38;5;" ++ lit "purple") (lit "x").
Proof.
  assert (999 ≠ 0)%Z as H1 by lia.
  assert (COLORS !! lit "purple" = None) as H2 by (vm_compute; reflexivity).
  assert (lit "purple" ≠ []) as H3 by (vm_compute; discriminate).
  split; [exact H1|].
  split; [exact (proj1 (proj1 (color_no_validation (lit "x")) 999%Z H1))|].
  split; [exact H2|]. split; [exact H3|].
  exact (proj1 (proj2 (color_no_validation (lit "x")) (lit "purple") H2 H3)).
Defined.

(** X24. [color] only puts the text between a prefix and a suffix that
    depend on the style alone: the text is kept as it is (an escape
    character inside it as well), the suffix is empty or the reset
    sequence, and different texts give different results. *)
Theorem color_wraps_text fg bg bold underline :
  ∃ prefix suffix,
    (∀ t, color t fg bg bold underline = prefix ++ t ++ suffix)
    ∧ (prefix = [] ∧ suffix = [] ∨ suffix = ESC :: lit "[0m")
    ∧ (∀ t t', color t fg bg bold underline = color t' fg bg bold underline → t = t').
Proof.
  unfold color.
  destruct (negb (any [truthy (COLORS_get fg); truthy (COLORS_get bg); bold])).
  - exists [], []. split_and!; [|by left|done]. intros t. by rewrite app_nil_r.
  - set (codes := join _ _).
    exists (ESC :: lit "[" ++ codes ++ lit "m"), (ESC :: lit "[0m").
    assert (∀ t, escape codes t = (ESC :: lit "[" ++ codes ++ lit "m") ++ t ++ ESC :: lit "[0m")
      as Hesc.
    { intros t. unfold escape. cbn [app]. by rewrite <- !app_assoc. }
    split_and!; [done|by right|].
    intros t t'. rewrite !Hesc. intros H%app_inv_head. by apply app_inv_tail in H.
Qed.

End color_more.

(** ** The prompt of [get_raw_input] *)

Module prompt_facts.
Import textwrap_facts textwrap_more.

Lemma suffix_of_two {A} (l1 rest pre : list A) (x y : A) :
  l1 ++ rest = pre ++ [x; y] → rest ≠ [] →
  (rest = [y] ∧ l1 = pre ++ [x]) ∨ (∃ pre', rest = pre' ++ [x; y] ∧ pre = l1 ++ pre').
Proof.
  intros H Hne. destruct rest as [|r rest _] using rev_ind; [done|].
  change (pre ++ [x; y]) with (pre ++ [x] ++ [y]) in H. rewrite !app_assoc in H.
  apply app_inj_tail in H as [H ->].
  destruct rest as [|r' rest _] using rev_ind.
  - left. by rewrite app_nil_r in H.
  - rewrite app_assoc in H. apply app_inj_tail in H as [H ->].
    right. exists rest. by rewrite <- app_assoc.
Qed.

Lemma ends_with {A} (bf tk af pre : list A) (x : A) :
  x ∉ bf → x ∉ af → bf ++ tk ++ af = pre ++ [x] →
  af = [] ∧ ∃ tk', tk = tk' ++ [x].
Proof.
  intros Hb Ha Heq. destruct af as [|a af _] using rev_ind.
  - split; [done|]. rewrite app_nil_r in Heq.
    destruct tk as [|t tk _] using rev_ind.
    + rewrite app_nil_r in Heq. destruct Hb. rewrite Heq. apply elem_of_app. right. by left.
    + rewrite app_assoc in Heq. apply app_inj_tail in Heq as [_ ->]. by exists tk.
  - rewrite !app_assoc in Heq. apply app_inj_tail in Heq as [_ ->].
    destruct Ha. apply elem_of_app. right. by left.
Qed.

Section last_line.
Context (w : textwrap.TextWrapper).
Hypothesis Hindent : textwrap.initial_indent w = textwrap.subsequent_indent w.
Implicit Types (chunks pre rest lines : list str) (X sp : str).

Lemma forallb_blank_elem chunks X :
  forallb textwrap.blank chunks = true → X ∈ chunks → textwrap.blank X = true.
Proof. rewrite forallb_forall. intros H Hin. by apply H, list_elem_of_In. Qed.

Lemma wrap_loop_one_blank n sp lines :
  textwrap.blank sp = true →
  textwrap.wrap_loop w (S n) [sp] lines = (lines, []).
Proof using Hindent.
  intros Hblank. cbn [textwrap.wrap_loop].
  pose proof (next_line_shrinks w lines [sp] ltac:(done)) as Hs.
  destruct (next_line_spec w Hindent lines [sp] ltac:(done))
    as (before & taken & after & rest & E & Hch & _ & _ & _ & Hlast).
  rewrite E in Hs |- *. cbn [snd length] in Hs.
  destruct rest; [|cbn in Hs; lia].
  destruct taken as [|t taken]; [by destruct n|].
  destruct before; [|destruct before; cbn in Hch; discriminate].
  cbn [app] in Hch. injection Hch as <- Hch.
  destruct taken; [|discriminate]. destruct after; [|discriminate].
  specialize (Hlast eq_refl). cbn in Hlast. congruence.
Qed.

(** When the chunks end with a non-blank chunk [X] and a blank one, the
    last line made ends with [X]. *)
Lemma wrap_loop_last_chunk n :
  ∀ chunks lines pre X sp,
    length chunks ≤ n → chunks = pre ++ [X; sp] →
    textwrap.blank X = false → textwrap.blank sp = true →
    ∃ lines' g,
      (textwrap.wrap_loop w n chunks lines).1
      = lines' ++ [textwrap.initial_indent w ++ concat g]
      ∧ last g = Some X.
Proof using Hindent.
  induction n as [|n IH]; intros chunks lines pre X sp Hn -> HX Hsp.
  { rewrite length_app in Hn. cbn in Hn. lia. }
  destruct (pre ++ [X; sp]) as [|c chunks] eqn:Echunks; [by destruct pre|].
  cbn [textwrap.wrap_loop].
  pose proof (next_line_shrinks w lines (c :: chunks) ltac:(done)) as Hs.
  destruct (next_line_spec w Hindent lines (c :: chunks) ltac:(done))
    as (before & taken & after & rest & E & Hch & Hb & Ha & _ & Hlast).
  rewrite E in Hs |- *. cbn [snd] in Hs. clear E. rewrite Hch in Echunks.
  assert (¬ X ∈ before) as HXb by (intros ?%(forallb_blank_elem _ _ Hb); congruence).
  assert (¬ X ∈ after) as HXa by (intros ?%(forallb_blank_elem _ _ Ha); congruence).
  destruct rest as [|r rest].
  - (* nothing left: the blank chunk was dropped after the line *)
    rewrite !app_nil_r in Echunks.
    assert (∃ taken', taken = taken' ++ [X]) as [taken' ->].
    { destruct after as [|a after _] using rev_ind.
      - rewrite app_nil_r in Echunks. specialize (Hlast eq_refl).
        destruct taken as [|t taken _] using rev_ind.
        + rewrite app_nil_r in Echunks. destruct HXb. rewrite <- Echunks.
          apply elem_of_app. right. by left.
        + change (pre ++ [X; sp]) with (pre ++ [X] ++ [sp]) in Echunks.
          rewrite !app_assoc in Echunks. apply app_inj_tail in Echunks as [_ ->].
          rewrite last_snoc in Hlast. congruence.
      - change (pre ++ [X; sp]) with (pre ++ [X] ++ [sp]) in Echunks.
        rewrite !app_assoc in Echunks. apply app_inj_tail in Echunks as [Heq ->].
        rewrite <- !app_assoc in Heq. symmetry in Heq.
        assert (X ∉ after) as HXa' by (intros ?; apply HXa, elem_of_app; by left).
        destruct (ends_with _ _ _ _ _ HXb HXa' Heq) as [_ [taken' ->]].
        by exists taken'. }
    destruct (taken' ++ [X]) as [|t0 tk] eqn:Etk; [by destruct taken'|]. rewrite <- Etk.
    exists lines, (taken' ++ [X]). split; [by destruct n|apply last_snoc].
  - rewrite !app_assoc in Echunks. symmetry in Echunks.
    destruct (suffix_of_two _ _ _ _ _ Echunks ltac:(done)) as [[Hrest Heq]|(pre' & Hrest & _)].
    + (* only the blank chunk is left *)
      rewrite <- !app_assoc in Heq.
      destruct (ends_with _ _ _ _ _ HXb HXa Heq) as [_ [taken' ->]].
      rewrite Hrest.
      assert (1 ≤ n) as Hn1 by (cbn in Hs, Hn; lia).
      destruct n as [|n]; [lia|].
      rewrite wrap_loop_one_blank by done. cbn [fst].
      destruct (taken' ++ [X]) as [|t0 tk] eqn:Etk; [by destruct taken'|]. rewrite <- Etk.
      exists lines, (taken' ++ [X]). split; [done|apply last_snoc].
    + rewrite Hrest. apply (IH _ _ pre' X sp); [|done|done|done].
      rewrite <- Hrest. cbn [length] in *. lia.
Qed.

End last_line.

Section prompt_chunks.
Implicit Types (text s : str).

Lemma expandtabs_from_colon text :
  ∀ col, textwrap.expandtabs_from col (text ++ [COLON; textwrap.SPACE])
         = textwrap.expandtabs_from col text ++ [COLON; textwrap.SPACE].
Proof.
  induction text as [|c text IH]; intros col; [done|].
  cbn [app textwrap.expandtabs_from].
  destruct (c =? textwrap.TAB)%Z; [by rewrite IH, <- app_assoc|].
  destruct (_ || _); by rewrite IH.
Qed.

Lemma _split_colon s :
  ∃ pre X,
    textwrap._split (s ++ [COLON; textwrap.SPACE]) = pre ++ [X; [textwrap.SPACE]]
    ∧ last X = Some COLON.
Proof.
  induction s as [|c s (pre & X & E & HX)]; [by exists [], [COLON]|].
  cbn [app textwrap._split]. rewrite E.
  destruct pre as [|p pre]; cbn [app].
  - destruct X as [|d X]; [done|].
    destruct (eqb _ _).
    + exists [], (c :: d :: X). split; [done|]. by rewrite last_cons, HX.
    + by exists [[c]], (d :: X).
  - destruct p as [|d p].
    + by exists ([c] :: pre), X.
    + destruct (eqb _ _).
      * by exists ((c :: d :: p) :: pre), X.
      * by exists ([c] :: (d :: p) :: pre), X.
Qed.

Lemma blank_colon X : last X = Some COLON → textwrap.blank X = false.
Proof.
  intros [X' ->]%last_Some. unfold textwrap.blank.
  rewrite forallb_app. cbn. by rewrite andb_false_r.
Qed.

Lemma _split_chunks_colon text :
  ∃ pre X,
    textwrap._split_chunks (text ++ [COLON; textwrap.SPACE]) = pre ++ [X; [textwrap.SPACE]]
    ∧ last X = Some COLON.
Proof.
  unfold textwrap._split_chunks, textwrap._munge_whitespace.
  rewrite expandtabs_from_colon, map_app. cbn [map].
  apply _split_colon.
Qed.

Lemma last_join lines line :
  line ≠ [] → last (join [NL] (lines ++ [line])) = last line.
Proof.
  intros Hne. induction lines as [|l lines IH]; [done|].
  cbn [app]. destruct (lines ++ [line]) as [|l' rest] eqn:E; [by destruct lines|].
  rewrite join_cons, !last_app, IH.
  destruct (last line) eqn:El; [done|]. by apply last_None in El.
Qed.

End prompt_chunks.
End prompt_facts.

Section prompt_extras.
Implicit Types (description : str) (default : option str) (indent : Z).

(** X25. The prompt [get_raw_input] shows ends with the colon: the space
    written after it is dropped by the wrapping, whatever the description
    and the default are. *)
Theorem prompt_ends_with_colon description default indent :
  (indent < 80)%Z →
  ∃ shown,
    prompt description default indent = Ok shown
    ∧ last shown = Some COLON.
Proof.
  intros Hindent. unfold prompt.
  set (additional := match default with Some (c :: d) => _ | _ => [] end).
  replace (description ++ additional ++ lit ": ")
    with ((description ++ additional) ++ [COLON; textwrap.SPACE])
    by (by rewrite <- app_assoc).
  generalize (description ++ additional). intros text.
  rewrite wrap_facts.wrap_unfold. cbn zeta. rewrite wrap_facts.wrapper_width.
  destruct (Z.leb_spec (80 - Z.max indent 0) 0); [lia|].
  destruct (prompt_facts._split_chunks_colon text) as (pre & X & E & HX).
  destruct (prompt_facts.wrap_loop_last_chunk (wrapper 80 indent) eq_refl
              (length (textwrap._split_chunks (text ++ [COLON; textwrap.SPACE])))
              _ [] pre X [textwrap.SPACE] (le_n _) E
              (prompt_facts.blank_colon X HX) eq_refl)
    as (lines' & g & -> & Hg).
  eexists. split; [reflexivity|].
  apply last_Some in Hg as [g' ->]. apply last_Some in HX as [X' ->].
  rewrite prompt_facts.last_join.
  - rewrite concat_app. cbn [concat]. by rewrite app_nil_r, !app_assoc, last_snoc.
  - rewrite concat_app. cbn [concat]. rewrite app_nil_r, !app_assoc.
    intros Hnil. by apply app_eq_nil in Hnil as [_ ?].
Qed.

Lemma prompt_ends_with_colon_witness :
  (4 < 80)%Z
  ∧ ∃ shown,
      prompt (lit "Name") (Some (lit "bob")) 4 = Ok shown
      ∧ last shown = Some COLON.
Proof.
  assert (4 < 80)%Z as H by lia.
  split; [exact H|]. exact (prompt_ends_with_colon (lit "Name") (Some (lit "bob")) 4 H).
Defined.

End prompt_extras.
